(** * xray scripts: a shallow embedding of [scripts/fix-translations.py]
      and [scripts/resize-logos.py], with the properties of their
      specification.

    Python values are embedded as follows.
    - A [str] is the list of its Unicode code points ([pystr]); the
      whitespace class of [str.strip] is the one of CPython.
    - A value read by [json.load] is a [value]; a JSON object that the
      scripts index by key (a tweet, an analysis record) is a finite map
      from keys to values ([obj]).
    - An uncaught exception is the [Raise] result; what the process does
      to the outside world (prints, the service request, the file write)
      is recorded as a trace of events. *)

From Stdlib Require Ascii String.
From stdpp Require Import base option list strings gmap fin_maps.
Import String.StringSyntax.

Open Scope N_scope.
Open Scope nat_scope.

(** ** Python strings *)

Module Str.

Definition pystr := list N.

(** [lit "en"] is the Python literal ['en'] (ASCII literals only). *)
Definition lit (s : String.string) : pystr :=
  (λ a, N.of_nat (Ascii.nat_of_ascii a)) <$> String.list_ascii_of_string s.

Arguments lit s%_string_scope.

(** [str.isspace] on one code point (CPython's _PyUnicode_IsWhitespace). *)
Definition is_space (c : N) : bool :=
  ((9 <=? c) && (c <=? 13))%N
  || ((28 <=? c) && (c <=? 32))%N
  || (c =? 133)%N || (c =? 160)%N || (c =? 5760)%N
  || ((8192 <=? c) && (c <=? 8202))%N
  || (c =? 8232)%N || (c =? 8233)%N || (c =? 8239)%N
  || (c =? 8287)%N || (c =? 12288)%N.

Fixpoint lstrip (s : pystr) : pystr :=
  match s with
  | c :: rest => if is_space c then lstrip rest else s
  | [] => []
  end.

Definition rstrip (s : pystr) : pystr := reverse (lstrip (reverse s)).

(** [s.strip()] *)
Definition strip (s : pystr) : pystr := rstrip (lstrip s).

(** [s.startswith(p)] *)
Fixpoint startswith (p s : pystr) : bool :=
  match p, s with
  | [], _ => true
  | a :: p', b :: s' => (a =? b)%N && startswith p' s'
  | _ :: _, [] => false
  end.

(** [c in s] for a one-character [c]. *)
Definition contains (c : N) (s : pystr) : bool := existsb (N.eqb c) s.

(** [s.split(sep)] for a non-empty [sep]: the pieces between the
    occurrences of [sep], found from left to right without overlap.
    [skip] counts the characters of a separator just matched that are
    still to be passed over; [cur] is the current piece, reversed. *)
Fixpoint split_go (sep : pystr) (skip : nat) (cur s : pystr) : list pystr :=
  match s with
  | [] => [reverse cur]
  | c :: rest =>
      match skip with
      | S k => split_go sep k cur rest
      | O =>
          if startswith sep s
          then reverse cur :: split_go sep (length sep - 1) [] rest
          else split_go sep 0 (c :: cur) rest
      end
  end.

Definition split (sep s : pystr) : list pystr := split_go sep 0 [] s.

(** [s.split(c, 1)] for a one-character [c]: at most one cut. *)
Fixpoint split1_go (c : N) (cur s : pystr) : list pystr :=
  match s with
  | [] => [reverse cur]
  | x :: rest => if (x =? c)%N then [reverse cur; rest] else split1_go c (x :: cur) rest
  end.

Definition split1 (c : N) (s : pystr) : list pystr := split1_go c [] s.

(** [sep.join(parts)] *)
Fixpoint join (sep : pystr) (parts : list pystr) : pystr :=
  match parts with
  | [] => []
  | [p] => p
  | p :: more => p ++ sep ++ join sep more
  end.

End Str.

Export Str.

(** ** JSON values as Python sees them *)

Module Json.

(** What [json.load] builds: [None], [bool], [int], [str], [list] and
    [dict].  Numbers are integers here; a JSON number with a fraction or
    an exponent (a Python [float]) is outside the model.  A [dict] nested
    inside a field is never indexed by the scripts and is kept as the
    parser's sequence of distinct keys with their values. *)
#[warnings="-register-all"]
Inductive value :=
  | VNone
  | VBool (b : bool)
  | VInt (z : Z)
  | VStr (s : pystr)
  | VList (l : list value)
  | VDict (d : list (pystr * value)).

(** A tweet or an analysis record: a [dict] with [str] keys. *)
Abbreviation obj := (gmap pystr value).

(** The identity of a hashable value as a [dict] key: [True] and [1] are
    the same key, as are [False] and [0]. *)
Inductive key :=
  | KNone
  | KInt (z : Z)
  | KStr (s : pystr).

#[global] Instance key_eq_dec : EqDecision key.
Proof. solve_decision. Defined.

#[global] Instance key_countable : Countable key.
Proof.
  refine (inj_countable'
    (λ k, match k with
          | KNone => inl ()
          | KInt z => inr (inl z)
          | KStr s => inr (inr s)
          end)
    (λ x, match x with
          | inl _ => KNone
          | inr (inl z) => KInt z
          | inr (inr s) => KStr s
          end) _).
  by intros [].
Defined.

(** [hash(v)] succeeds exactly on the values that can be [dict] keys. *)
Definition py_key (v : value) : option key :=
  match v with
  | VNone => Some KNone
  | VBool b => Some (KInt (Z.b2z b))
  | VInt z => Some (KInt z)
  | VStr s => Some (KStr s)
  | VList _ | VDict _ => None
  end.

Fixpoint assoc (k : pystr) (d : list (pystr * value)) : option value :=
  match d with
  | [] => None
  | (k', v) :: rest => if decide (k = k') then Some v else assoc k rest
  end.

(** Python's [a == b] on JSON values. *)
Fixpoint py_eq (a b : value) : bool :=
  match a, b with
  | VNone, VNone => true
  | VBool x, VBool y => bool_decide (x = y)
  | VBool x, VInt y | VInt y, VBool x => bool_decide (Z.b2z x = y)
  | VInt x, VInt y => bool_decide (x = y)
  | VStr s, VStr t => bool_decide (s = t)
  | VList l, VList m =>
      (fix all2 (l m : list value) : bool :=
         match l, m with
         | [], [] => true
         | x :: l', y :: m' => py_eq x y && all2 l' m'
         | _, _ => false
         end) l m
  | VDict d, VDict e =>
      bool_decide (length d = length e)
      && forallb (λ kv, match assoc kv.1 e with
                        | Some w => py_eq kv.2 w
                        | None => false
                        end) d
  | _, _ => false
  end.

End Json.

Export Json.

(** ** Exceptions and the process trace *)

Module Run.

Inductive exn :=
  | KeyError (k : pystr)
  | TypeError
  | IndexError
  | ValueError
  | FileNotFoundError
  | FileExistsError
  | IsADirectoryError
  | UnidentifiedImageError
  | DecompressionBombError (* Image.open on more than twice MAX_IMAGE_PIXELS *)
  | OverflowError          (* a Python int that does not fit a C int *)
  | UnicodeEncodeError     (* 'utf-8' codec can't encode ...: surrogates not allowed *)
  | EncoderError           (* OSError: cannot write mode ... *)
  | SystemExit (code : Z)
  | ServiceError.          (* whatever the client call raises *)

#[global] Instance exn_eq_dec : EqDecision exn.
Proof. solve_decision. Defined.

Inductive result (A : Type) :=
  | Ok (a : A)
  | Raise (e : exn).

Arguments Ok {A} a.
Arguments Raise {A} e.

#[global] Instance result_ret : MRet result := λ A a, Ok a.
#[global] Instance result_bind : MBind result := λ A B f r,
  match r with
  | Ok a => f a
  | Raise e => Raise e
  end.

(** [d[k]] *)
Definition getitem (d : obj) (k : pystr) : result value :=
  match d !! k with
  | Some v => Ok v
  | None => Raise (KeyError k)
  end.

(** [l[i]] for [0 <= i] *)
Definition index {A} (l : list A) (i : nat) : result A :=
  match l !! i with
  | Some x => Ok x
  | None => Raise IndexError
  end.

(** Using a value as a [dict] key. *)
Definition hash (v : value) : result key :=
  match py_key v with
  | Some k => Ok k
  | None => Raise TypeError
  end.

(** What the scripts print, with the interpolated numbers. *)
Inductive message :=
  | MissingApiKey          (* "OPENAI_API_KEY not found in environment" *)
  | MissingOpenAI          (* "openai package not installed. ..." *)
  | Found (n : nat)        (* "Found {n} English tweets needing translation" *)
  | Translated (n : nat)   (* "Translated {n} tweets" *)
  | NoWork.                (* "No English tweets need translation" *)

Inductive event :=
  | Print (m : message)
  | Request (payload : pystr)     (* client.chat.completions.create(...) *)
  | Truncate                      (* open('data/analyze_output.json', 'w') *)
  | Dump (items : list obj).      (* json.dump(analyzed, f) written to the end *)

(** A process step: the events it caused, in order, and how it ended. *)
Definition proc (A : Type) : Type := list event * result A.

#[global] Instance proc_ret : MRet proc := λ A a, ([], Ok a).
#[global] Instance proc_bind : MBind proc := λ A B f p,
  match p.2 with
  | Ok a => (p.1 ++ (f a).1, (f a).2)
  | Raise e => (p.1, Raise e)
  end.

Definition emit (e : event) : proc () := ([e], Ok ()).
Definition lift {A} (r : result A) : proc A := ([], r).
Definition exit {A} (code : Z) : proc A := ([], Raise (SystemExit code)).

End Run.

Export Run.

(** ** scripts/fix-translations.py *)

Module Patcher.

Definition k_id : pystr := lit "id".
Definition k_lang : pystr := lit "lang".
Definition k_text : pystr := lit "text".
Definition k_translation : pystr := lit "translation".
Definition blank_line : pystr := [10; 10]%N.       (* '\n\n' *)
Definition bracket_open : N := 91%N.               (* '[' *)
Definition bracket_close : N := 93%N.              (* ']' *)

(** What the script reads besides the two JSON files. *)
Record env := {
  api_key : option pystr;               (* os.environ.get('OPENAI_API_KEY') *)
  openai_installed : bool;              (* does [from openai import OpenAI] succeed *)
  service : pystr → result pystr        (* user content ↦ choices[0].message.content *)
}.

(** The two documents in memory: [raw['tweets']] and [analyzed['items']].
    [json.load] builds every object anew, so no tweet shares an object
    with a record or with another tweet; the collections are therefore
    passed as values, and an assignment to a field of a record is the
    replacement of that record in [analyzed]. *)
Record memory := {
  raw : list obj;
  analyzed : list obj
}.

(** Line 24: [{item['id']: item for item in analyzed['items']}] *)
Fixpoint build_map (items : list obj) (m : gmap key obj) : result (gmap key obj) :=
  match items with
  | [] => Ok m
  | item :: rest =>
      v ← getitem item k_id;
      k ← hash v;
      build_map rest (<[k := item]> m)
  end.

(** Line 31: [analyzed_item is None or analyzed_item.get('translation', '') == ''] *)
Definition needs_translation (analyzed_item : option obj) : bool :=
  match analyzed_item with
  | None => true
  | Some item => py_eq (default (VStr []) (item !! k_translation)) (VStr [])
  end.

(** Lines 27-32: the loop that fills [tweets_to_translate]. *)
Fixpoint find_work (analyzed_map : gmap key obj) (tweets : list obj) : result (list obj) :=
  match tweets with
  | [] => Ok []
  | tweet :: rest =>
      lang ← getitem tweet k_lang;
      if py_eq lang (VStr (lit "en")) then
        v ← getitem tweet k_id;
        k ← hash v;
        if needs_translation (analyzed_map !! k)
        then more ← find_work analyzed_map rest; Ok (tweet :: more)
        else find_work analyzed_map rest
      else find_work analyzed_map rest
  end.

(** Line 38: [[t['text'] for t in tweets_to_translate[:20]]] *)
Fixpoint texts_of (batch : list obj) : result (list value) :=
  match batch with
  | [] => Ok []
  | t :: rest => v ← getitem t k_text; more ← texts_of rest; Ok (v :: more)
  end.

(** Line 49: ["\n\n".join(texts)] raises [TypeError] on a text that is not a [str]. *)
Fixpoint as_strs (texts : list value) : result (list pystr) :=
  match texts with
  | [] => Ok []
  | VStr s :: rest => more ← as_strs rest; Ok (s :: more)
  | _ :: _ => Raise TypeError
  end.

Definition join_texts (texts : list value) : result pystr :=
  strs ← as_strs texts; Ok (join blank_line strs).

(** Lines 60-63: one response segment, cleaned. *)
Definition clean (segment : pystr) : result pystr :=
  let translation := strip segment in
  if startswith [bracket_open] translation then
    if contains bracket_close translation then
      tail ← index (split1 bracket_close translation) 1;
      Ok (strip tail)
    else Ok translation
  else Ok translation.

(** Lines 66-69: the scan for the record of [tweet], stopped by [break]. *)
Fixpoint set_translation (tweet : obj) (translation : pystr) (items : list obj)
  : result (list obj) :=
  match items with
  | [] => Ok []
  | item :: rest =>
      a ← getitem item k_id;
      b ← getitem tweet k_id;
      if py_eq a b
      then Ok (<[k_translation := VStr translation]> item :: rest)
      else rest' ← set_translation tweet translation rest; Ok (item :: rest')
  end.

(** Lines 58-69: [for i, tweet in enumerate(tweets_to_translate[:20])]. *)
Fixpoint update_loop (i : nat) (batch : list obj) (translations : list pystr)
    (items : list obj) : result (list obj) :=
  match batch with
  | [] => Ok items
  | tweet :: rest =>
      items' ← (if bool_decide (i < length translations) then
                  segment ← index translations i;
                  translation ← clean segment;
                  set_translation tweet translation items
                else Ok items);
      update_loop (S i) rest translations items'
  end.

(** Lines 24-32. *)
Definition worklist (tweets items : list obj) : result (list obj) :=
  analyzed_map ← build_map items ∅;
  find_work analyzed_map tweets.

(** Text files are written in UTF-8, which has no encoding for the
    surrogate code points U+D800..U+DFFF; [ensure_ascii=False] passes the
    characters of every string on as they are. *)
Definition encodable (s : pystr) : bool :=
  forallb (λ c, negb ((55296 <=? c) && (c <=? 57343))%N) s.

Fixpoint value_encodable (v : value) : bool :=
  match v with
  | VStr s => encodable s
  | VList l => forallb value_encodable l
  | VDict d => forallb (λ kv, encodable kv.1 && value_encodable kv.2) d
  | _ => true
  end.

(** Keys and values of one record. *)
Definition obj_encodable (o : obj) : bool :=
  bool_decide (map_Forall (λ k v, encodable k = true ∧ value_encodable v = true) o).

Definition dumpable (items : list obj) : bool := forallb obj_encodable items.

(** Line 73, on the file that line 72 has just emptied: the text is
    written piece by piece, and the first piece that cannot be encoded
    raises, the file keeping what was written before it.  Of the
    document only the [items] are followed here; its other entries are
    written back as they were read. *)
Definition json_dump (items : list obj) : result () :=
  if dumpable items then Ok () else Raise UnicodeEncodeError.

(** The whole script, from the credential check to the last print. *)
Definition main (e : env) (mem : memory) : proc memory :=
  (if bool_decide (api_key e = None ∨ api_key e = Some [])
   then emit (Print MissingApiKey);; exit 1
   else mret ());;
  (if openai_installed e
   then mret ()
   else emit (Print MissingOpenAI);; exit 1);;
  tweets_to_translate ← lift (worklist (raw mem) (analyzed mem));
  emit (Print (Found (length tweets_to_translate)));;
  match tweets_to_translate with
  | _ :: _ =>
      let batch := take 20 tweets_to_translate in
      texts ← lift (texts_of batch);
      payload ← lift (join_texts texts);
      emit (Request payload);;
      content ← lift (service e payload);
      let translations := split blank_line content in
      items' ← lift (update_loop 0 batch translations (analyzed mem));
      emit Truncate;;
      lift (json_dump items');;
      emit (Dump items');;
      emit (Print (Translated (length batch)));;
      mret {| raw := raw mem; analyzed := items' |}
  | [] =>
      emit (Print NoWork);;
      mret mem
  end.

(** The collection in data/analyze_output.json after a run that left the
    trace [tr], when it held [items] before; [None] when the file was
    emptied and the document not written to its end, so that it no longer
    holds a JSON document. *)
Definition persisted (items : list obj) (tr : list event) : option (list obj) :=
  foldl (λ cur ev, match ev with
                   | Truncate => None
                   | Dump its => Some its
                   | _ => cur
                   end) (Some items) tr.

End Patcher.

(** ** scripts/resize-logos.py *)

Module Logo.

(** Pillow's image modes. *)
Inductive mode :=
  | M1 | ML | MP | MRGB | MRGBA | MCMYK | MYCbCr | MLAB | MHSV | MI | MF
  | MLA | MPA | MRGBX | MRGBa | MLa.

#[global] Instance mode_eq_dec : EqDecision mode.
Proof. solve_decision. Defined.

(** Does the mode carry an alpha band. *)
Definition has_alpha (m : mode) : bool :=
  match m with
  | MRGBA | MLA | MPA | MRGBa | MLa => true
  | _ => false
  end.

Inductive format := PNG | ICO.

#[global] Instance format_eq_dec : EqDecision format.
Proof. solve_decision. Defined.

(** Modes the PNG encoder writes; the ICO encoder stores PNG frames. *)
Definition encodable (f : format) (m : mode) : bool :=
  match m with
  | M1 | ML | MLA | MI | MP | MRGB | MRGBA => true
  | _ => false
  end.

Inductive resampling := NEAREST | BILINEAR | BICUBIC | LANCZOS.

Definition loc := positive.
Definition path := list string.

(** What the script prints. *)
Inductive message :=
  | SourceLogo (size : Z * Z)      (* "Source logo: {logo.size}" *)
  | SidebarLogo (size : Z * Z)     (* "Sidebar logo: {sidebar.size}" *)
  | LoginLogo (size : Z * Z)       (* "Login logo: {login.size}" *)
  | FaviconsGenerated              (* "Favicons generated: 16x16, 32x32, 180x180, .ico" *)
  | Done.                          (* "Done!" *)

Inductive event :=
  | Say (m : message)
  | Wrote (p : path).

Section Resizer.

(** The pixel data of an image and the two pixel transformations of
    Pillow that the script reaches; their values (floating-point
    filtering) are not looked into. *)
Context {bitmap : Type}.
Variable convert_pixels : mode → mode → bitmap → bitmap.
Variable resample_pixels : resampling → mode → Z * Z → bitmap → Z * Z → bitmap.

(** An [Image.Image]: mode, (width, height) and pixel data. *)
Record image := {
  mode_of : mode;
  size_of : Z * Z;
  pixels : bitmap
}.

Inductive content :=
  | Encoded (f : format) (im : image)   (* a file an image decoder accepts *)
  | Other.

Inductive node :=
  | Dir
  | File (c : content).

(** Image objects, the files below the repository root, and what the
    run has printed and written so far (latest first). *)
Record world := {
  heap : gmap loc image;
  fs : gmap path node;
  log : list event
}.

Definition io (A : Type) : Type := world → result A * world.

#[local] Instance io_ret : MRet io := λ A a w, (Ok a, w).
#[local] Instance io_bind : MBind io := λ A B f c w,
  match c w with
  | (Ok a, w') => f a w'
  | (Raise e, w') => (Raise e, w')
  end.

Definition raise {A} (e : exn) : io A := λ w, (Raise e, w).

Definition tell (ev : event) : io () := λ w,
  (Ok (), {| heap := heap w; fs := fs w; log := ev :: log w |}).

(** A new image object. *)
Definition alloc (im : image) : io loc := λ w,
  let l := fresh (dom (heap w)) in
  (Ok l, {| heap := <[l := im]> (heap w); fs := fs w; log := log w |}).

Definition deref (l : loc) : io image := λ w,
  match heap w !! l with
  | Some im => (Ok im, w)
  | None => (Raise TypeError, w)
  end.

(** [Path.mkdir(exist_ok=True)] of a directory below the root. *)
Definition mkdir_exist_ok (p : path) : io () := λ w,
  match fs w !! p with
  | Some Dir => (Ok (), w)
  | Some (File _) => (Raise FileExistsError, w)
  | None => (Ok (), {| heap := heap w; fs := <[p := Dir]> (fs w); log := log w |})
  end.

(** [Image.MAX_IMAGE_PIXELS]: a warning above it, an exception above twice
    as many. *)
Definition max_image_pixels : Z := 89478485.

Definition pixel_count (im : image) : Z :=
  (Z.max 1 (size_of im).1 * Z.max 1 (size_of im).2)%Z.

(** [Image.open(p)] *)
Definition image_open (p : path) : io loc := λ w,
  match fs w !! p with
  | Some (File (Encoded _ im)) =>
      if bool_decide (2 * max_image_pixels < pixel_count im)%Z
      then (Raise DecompressionBombError, w)
      else alloc im w
  | Some (File Other) => (Raise UnidentifiedImageError, w)
  | Some Dir => (Raise IsADirectoryError, w)
  | None => (Raise FileNotFoundError, w)
  end.

(** [self.convert(m)]: a new image of the same size in mode [m]. *)
Definition image_convert (self : loc) (m : mode) : io loc :=
  im ← deref self;
  alloc {| mode_of := m; size_of := size_of im;
           pixels := convert_pixels (mode_of im) m (pixels im) |}.

(** The two sides of a size are handed to C as [int]. *)
Definition fits_c_int (z : Z) : Prop := (-2147483648 ≤ z < 2147483648)%Z.

(** [self.resize(size, resample)]: a new image of the requested size in
    the mode of [self]; a side that is no C [int] is refused when the
    arguments are converted, and then a size that is not positive. *)
Definition image_resize (self : loc) (size : Z * Z) (r : resampling) : io loc :=
  im ← deref self;
  if bool_decide (fits_c_int size.1 ∧ fits_c_int size.2)
  then
    if bool_decide (0 < size.1 ∧ 0 < size.2)%Z
    then alloc {| mode_of := mode_of im; size_of := size;
                  pixels := resample_pixels r (mode_of im) (size_of im) (pixels im) size |}
    else raise ValueError
  else raise OverflowError.

Definition ends_with (suffix name : string) : bool :=
  bool_decide (String.substring (String.length name - String.length suffix)
                                (String.length suffix) name = suffix
               ∧ String.length suffix ≤ String.length name).

(** The format Pillow picks from a file name. *)
Definition format_of_name (name : string) : option format :=
  if ends_with ".png" name then Some PNG
  else if ends_with ".ico" name then Some ICO
  else None.

(** Creating or truncating the file [p] and filling it: the directory of
    [p] must exist, and [p] must not be a directory. *)
Definition is_dir (w : world) (p : path) : bool :=
  match p with
  | [] => true
  | _ :: _ => match fs w !! p with Some Dir => true | _ => false end
  end.

Definition write_file (p : path) (c : content) : io () := λ w,
  if is_dir w (removelast p) then
    if is_dir w p then (Raise IsADirectoryError, w)
    else (Ok (), {| heap := heap w; fs := <[p := File c]> (fs w);
                    log := Wrote p :: log w |})
  else (Raise FileNotFoundError, w).

(** [self.save(p)] and [self.save(p, format=f)]. *)
Definition image_save (self : loc) (p : path) (f : option format) : io () :=
  im ← deref self;
  fmt ← (match f with
         | Some fmt => mret fmt
         | None => match last p ≫= format_of_name with
                   | Some fmt => mret fmt
                   | None => raise ValueError
                   end
         end);
  if encodable fmt (mode_of im)
  then write_file p (Encoded fmt im)
  else raise EncoderError.

(** Lines 15-17. *)
Definition resize_square (img : loc) (size : Z) : io loc :=
  image_resize img (size, size) LANCZOS.

Definition public : path := ["public"].
Definition in_public (name : string) : path := public ++ [name].

Definition size_at (l : loc) : io (Z * Z) := im ← deref l; mret (size_of im).

(** Lines 20-52. *)
Definition main : io () :=
  mkdir_exist_ok public;;
  opened ← image_open ["logo.png"];
  logo ← image_convert opened MRGBA;
  s ← size_at logo; tell (Say (SourceLogo s));;
  sidebar ← resize_square logo 24;
  image_save sidebar (in_public "logo-24.png") None;;
  s ← size_at sidebar; tell (Say (SidebarLogo s));;
  login ← resize_square logo 80;
  image_save login (in_public "logo-80.png") None;;
  s ← size_at login; tell (Say (LoginLogo s));;
  favicon_16 ← resize_square logo 16;
  favicon_32 ← resize_square logo 32;
  apple_touch ← resize_square logo 180;
  image_save favicon_16 (in_public "favicon-16.png") None;;
  image_save favicon_32 (in_public "favicon-32.png") None;;
  image_save apple_touch (in_public "apple-touch-icon.png") None;;
  image_save favicon_32 (in_public "favicon.ico") (Some ICO);;
  tell (Say FaviconsGenerated);;
  tell (Say Done).

(** The files a run has written, in the order of the writes. *)
Definition written (w : world) : list path :=
  reverse (omap (λ ev, match ev with Wrote p => Some p | Say _ => None end) (log w)).

(** The image that [self.resize((size, size), LANCZOS)] builds from [im]. *)
Definition resized (im : image) (size : Z) : image :=
  {| mode_of := mode_of im; size_of := (size, size);
     pixels := resample_pixels LANCZOS (mode_of im) (size_of im) (pixels im) (size, size) |}.

End Resizer.

End Logo.

(** * Specification-side definitions *)

Module Spec.
Import Patcher.

(** ["trim surrounding whitespace"]: [t] is [s] without the whitespace
    before its first and after its last character that is not one. *)
Definition trimmed (s t : pystr) : Prop :=
  ∃ before after : pystr,
    s = before ++ t ++ after
    ∧ Forall (λ c, is_space c = true) before
    ∧ Forall (λ c, is_space c = true) after
    ∧ (∀ c, head t = Some c → is_space c = false)
    ∧ (∀ c, last t = Some c → is_space c = false).

(** Step 7 of the algorithm, in the words of the specification. *)
Inductive cleaned (segment : pystr) : pystr → Prop :=
  | cleaned_plain t :
      trimmed segment t →
      head t ≠ Some bracket_open →
      cleaned segment t
  | cleaned_unterminated t :
      trimmed segment t →
      head t = Some bracket_open →
      bracket_close ∉ t →
      cleaned segment t
  | cleaned_numbered t number rest u :
      trimmed segment t →
      head t = Some bracket_open →
      t = number ++ bracket_close :: rest →
      bracket_close ∉ number →
      trimmed rest u →
      cleaned segment u.

(** The identifier of a record as a [dict] key. *)
Definition item_key (o : obj) : option key := o !! k_id ≫= py_key.

(** Two records carry equal identifiers ([==] of Python). *)
Definition same_id (a b : obj) : bool :=
  match a !! k_id, b !! k_id with
  | Some x, Some y => py_eq x y
  | _, _ => false
  end.

(** ["lang == 'en'"] *)
Definition is_english (tweet : obj) : bool :=
  match tweet !! k_lang with
  | Some (VStr s) => bool_decide (s = lit "en")
  | _ => false
  end.

(** ["translation field is empty or absent"] *)
Definition untranslated (record : obj) : bool :=
  match record !! k_translation with
  | None | Some (VStr []) => true
  | _ => false
  end.

(** The analysis record that decides about a tweet: the last one, in
    stored order, with the tweet's identifier. *)
Definition consulted_record (items : list obj) (tweet : obj) : option obj :=
  last (filter (λ item, same_id item tweet) items).

(** The analysis record that the linear scan reaches: the first one
    with the tweet's identifier, and its position. *)
Definition scanned_record (items : list obj) (tweet : obj) : option (nat * obj) :=
  list_find (λ item, same_id item tweet) items.

(** Step 3 of the algorithm. *)
Definition eligible (items : list obj) (tweet : obj) : bool :=
  is_english tweet
  && match consulted_record items tweet with
     | None => true
     | Some record => untranslated record
     end.

(** The credential and the client library are there. *)
Definition configured (e : env) : Prop :=
  api_key e ≠ None ∧ api_key e ≠ Some [] ∧ openai_installed e = true.

(** The run reaches the service with [batch] and is answered [content]. *)
Definition responds (e : env) (mem : memory) (batch : list obj) (content : pystr) : Prop :=
  configured e
  ∧ ∃ wl payload,
      worklist (raw mem) (analyzed mem) = Ok wl
      ∧ wl ≠ []
      ∧ batch = take 20 wl
      ∧ texts_of batch ≫= join_texts = Ok payload
      ∧ service e payload = Ok content.

(** How many records had no translation in [before] and have one in [after]. *)
Definition newly_translated (before after : list obj) : nat :=
  length (filter (λ p : obj * obj, untranslated p.1 && negb (untranslated p.2))
                 (zip before after)).

(** The record with its [translation] field set. *)
Definition with_translation (u : pystr) (record : obj) : obj :=
  <[k_translation := VStr u]> record.

(** *** Notions used to state the properties *)

(** The record has an identifier that can be a [dict] key. *)
Definition keyed (o : obj) : Prop := is_Some (item_key o).

(** A tweet collection that the scan passes without an exception. *)
Definition scannable (tweets : list obj) : Prop :=
  Forall (λ tweet, is_Some (tweet !! k_lang) ∧ (is_english tweet → keyed tweet)) tweets.

(** The record has an [id] field. *)
Definition has_id (o : obj) : Prop := is_Some (o !! k_id).

(** The [id] fields of a collection, in stored order. *)
Definition ids (items : list obj) : list (option value) := (λ o : obj, o !! k_id) <$> items.

(** What one pass of the scan does to the collection. *)
Definition set_first (tweet : obj) (u : pystr) (items : list obj) : list obj :=
  match scanned_record items tweet with
  | Some (j, record) => <[j := with_translation u record]> items
  | None => items
  end.

(** The cleaned segment as a text. *)
Definition clean_text (segment : pystr) : pystr :=
  match clean segment with
  | Ok u => u
  | Raise _ => segment
  end.

(** The effect of one round of the loop that has a segment. *)
Definition step (items : list obj) (p : obj * pystr) : list obj :=
  set_first p.1 (clean_text p.2) items.

(** *** Sample data *)

Definition tweet_of (i : Z) (lang text : String.string) : obj :=
  {[ k_id := VInt i; k_lang := VStr (lit lang); k_text := VStr (lit text) ]}.
Arguments tweet_of i%_Z lang%_string_scope text%_string_scope.

Definition record_of (i : Z) : obj := {[ k_id := VInt i ]}.
Arguments record_of i%_Z.

Definition nihao : pystr := [20320; 22909]%N.        (* '你好' *)
Definition zaijian : pystr := [20877; 35265]%N.      (* '再见' *)

(** An environment whose service answers [answer] to every request. *)
Definition answering (answer : pystr) : env :=
  {| api_key := Some (lit "sk-test"); openai_installed := true;
     service := λ _, Ok answer |}.

Definition two_tweets : memory :=
  {| raw := [tweet_of 1 "en" "hello"; tweet_of 2 "en" "bye"];
     analyzed := [record_of 1; record_of 2] |}.

(** An English tweet to translate, a French one, an English one without
    a record and an English one already translated. *)
Definition mixed : memory :=
  {| raw := [tweet_of 1 "en" "hello"; tweet_of 2 "fr" "salut";
             tweet_of 3 "en" "bye"; tweet_of 4 "en" "done"];
     analyzed := [record_of 1; with_translation nihao (record_of 4)] |}.

(** Two tweets under one identifier, and the record of that identifier. *)
Definition twin_tweets : memory :=
  {| raw := [tweet_of 1 "en" "hello"; tweet_of 1 "en" "bye"];
     analyzed := [record_of 1] |}.

(** *** The claims that do not hold, as they are stated *)

(** "If the response contains fewer translations than tweets sent
    (M < K), exactly the first M tweets' analysis records are updated
    (positionally), the remaining K - M records are left unchanged, and no
    error is raised", the error being read as one of the update. *)
Definition short_response_claim : Prop :=
  ∀ e mem batch content,
    responds e mem batch content →
    length (split blank_line content) < length batch →
    ∃ items',
      update_loop 0 batch (split blank_line content) (analyzed mem) = Ok items'
      ∧ (∀ i tweet segment j record,
           batch !! i = Some tweet →
           split blank_line content !! i = Some segment →
           scanned_record (analyzed mem) tweet = Some (j, record) →
           ∃ u, clean segment = Ok u ∧ items' !! j = Some (with_translation u record))
      ∧ (∀ i tweet j record,
           length (split blank_line content) ≤ i →
           batch !! i = Some tweet →
           scanned_record (analyzed mem) tweet = Some (j, record) →
           items' !! j = Some record).

(** "All K matched analysis records receive non-empty translation values." *)
Definition nonempty_translations_claim : Prop :=
  ∀ e mem batch content items',
    responds e mem batch content →
    length (split blank_line content) = length batch →
    (main e mem).2 = Ok {| raw := raw mem; analyzed := items' |} →
    ∀ i tweet j record,
      batch !! i = Some tweet →
      scanned_record (analyzed mem) tweet = Some (j, record) →
      ∃ u, u ≠ [] ∧ items' !! j = Some (with_translation u record).

(** "Running the patcher twice with no new eligible tweets between runs
    produces no file write on the second run and reports zero work." *)
Definition second_run_idle_claim : Prop :=
  ∀ e tweets items mem1 items1,
    let first := main e {| raw := tweets; analyzed := items |} in
    first.2 = Ok mem1 →
    persisted items first.1 = Some items1 →
    let second := main e {| raw := tweets; analyzed := items1 |} in
    Truncate ∉ second.1 ∧ (∀ written, Dump written ∉ second.1)
    ∧ Print (Found 0) ∈ second.1.

(** "The count reported equals the number of analysis records that
    received a translation." *)
Definition reported_count_claim : Prop :=
  ∀ e mem mem' n,
    (main e mem).2 = Ok mem' →
    Print (Translated n) ∈ (main e mem).1 →
    n = newly_translated (analyzed mem) (analyzed mem').

End Spec.

Module LogoSpec.
Import Logo.

(** [w'] is [w] with one more image object, [l]. *)
Definition extends {bitmap} (w : world (bitmap := bitmap)) (l : loc) (im : image)
    (w' : world)  : Prop :=
  heap w !! l = None ∧ heap w' = <[l := im]> (heap w) ∧ fs w' = fs w ∧ log w' = log w.

(** The names of the files that the script writes into [public]. *)
Definition output_names : list string :=
  ["logo-24.png"; "logo-80.png"; "favicon-16.png"; "favicon-32.png";
   "apple-touch-icon.png"; "favicon.ico"].

(** *** Sample data *)

Definition flat : image (bitmap := ()) :=
  {| mode_of := MP; size_of := (512, 512)%Z; pixels := () |}.

(** A checkout with logo.png and no [public] directory yet. *)
Definition checkout : world :=
  {| heap := ∅; fs := {[ ["logo.png"] := File (Encoded PNG flat) ]}; log := [] |}.

Definition keep_pixels : mode → mode → () → () := λ _ _ b, b.
Definition resample_unit : resampling → mode → Z * Z → () → Z * Z → () := λ _ _ _ b _, b.

(** *** The claims that do not hold, as they are stated *)

(** "Running main() produces exactly seven output files", of a run that
    comes to its end. *)
Definition seven_files_claim : Prop :=
  ∀ (bitmap : Type) (convert_pixels : mode → mode → bitmap → bitmap)
    (resample_pixels : resampling → mode → Z * Z → bitmap → Z * Z → bitmap)
    (w w' : world) (f : format) (src : image),
    fs w !! ["logo.png"] = Some (File (Encoded f src)) →
    (∀ p, fs w !! p ≠ Some Dir) →
    log w = [] →
    main convert_pixels resample_pixels w = (Ok (), w') →
    length (written w') = 7.

(** "resize_square(image, size) for every input image and positive size
    returns a new bitmap of exactly size x size pixels." *)
Definition every_positive_size_claim : Prop :=
  ∀ (bitmap : Type)
    (resample_pixels : resampling → mode → Z * Z → bitmap → Z * Z → bitmap)
    (w : world) (img : loc) (im : image) (size : Z),
    heap w !! img = Some im →
    (0 < size)%Z →
    ∃ out w' im', resize_square resample_pixels img size w = (Ok out, w')
                  ∧ heap w' !! out = Some im'
                  ∧ size_of im' = (size, size).

(** A heap with the sample image. *)
Definition one_image : world :=
  {| heap := {[ 1%positive := flat ]}; fs := ∅; log := [] |}.

End LogoSpec.

(** * Further sample data and notions *)

Module PatcherMore.
Import Patcher Spec.

(** Twenty-one English tweets, numbered from 0, and the record of the
    last one. *)
Definition many_tweets : memory :=
  {| raw := (λ i, tweet_of (Z.of_nat i) "en" "t") <$> seq 0 21;
     analyzed := [record_of 20] |}.

(** Twenty-one segments. *)
Definition many_lines : pystr := join blank_line (replicate 21 nihao).

(** A text that UTF-8 cannot encode: U+D800 on its own. *)
Definition lone_surrogate : pystr := [55296]%N.

End PatcherMore.

Module LogoMore.
Import Logo.

(** What a run has printed, in the order of the prints. *)
Definition said {bitmap} (w : world (bitmap := bitmap)) : list message :=
  reverse (omap (λ ev, match ev with Say m => Some m | Wrote _ => None end) (log w)).

End LogoMore.

(** * Properties *)

Set Warnings "-clear-no-such-hyp".

Section StrFacts.

Lemma lstrip_spec (s : pystr) :
  ∃ l, s = l ++ lstrip s ∧ Forall (λ c, is_space c = true) l
       ∧ ∀ c, head (lstrip s) = Some c → is_space c = false.
Proof.
  induction s as [|c s (l & Hs & Hl & Hh)]; simpl.
  - exists []. split_and!; [done|constructor|done].
  - destruct (is_space c) eqn:Hc.
    + exists (c :: l). split_and!; [by rewrite Hs at 1|by constructor|done].
    + exists []. split_and!; [done|constructor|]. simpl. by intros ? [= <-].
Qed.

Lemma rstrip_spec (s : pystr) :
  ∃ r, s = rstrip s ++ r ∧ Forall (λ c, is_space c = true) r
       ∧ ∀ c, last (rstrip s) = Some c → is_space c = false.
Proof.
  unfold rstrip. destruct (lstrip_spec (reverse s)) as (l & Hs & Hl & Hh).
  exists (reverse l). split_and!.
  - rewrite <-reverse_app, <-Hs. by rewrite reverse_involutive.
  - by apply Forall_reverse.
  - intros c. rewrite last_reverse. apply Hh.
Qed.

Lemma strip_trimmed (s : pystr) : Spec.trimmed s (strip s).
Proof.
  unfold strip. destruct (lstrip_spec s) as (l & Hs & Hl & Hh).
  destruct (rstrip_spec (lstrip s)) as (r & Hs' & Hr & Ht).
  exists l, r. split_and!; try done.
  - by rewrite <-Hs'.
  - intros c Hc. apply Hh. rewrite Hs', head_app, Hc. done.
Qed.

Lemma lstrip_spaces (l s : pystr) :
  Forall (λ c, is_space c = true) l → lstrip (l ++ s) = lstrip s.
Proof. induction 1 as [|c l Hc _ IH]; [done|]. simpl. by rewrite Hc. Qed.

Lemma lstrip_id (s : pystr) :
  (∀ c, head s = Some c → is_space c = false) → lstrip s = s.
Proof. destruct s as [|c s]; [done|]. intros Hc. simpl. by rewrite (Hc c). Qed.

Lemma lstrip_all_spaces (s : pystr) :
  Forall (λ c, is_space c = true) s → lstrip s = [].
Proof. induction 1 as [|c l Hc _ IH]; [done|]. simpl. by rewrite Hc. Qed.

Lemma trimmed_strip (s t : pystr) : Spec.trimmed s t → strip s = t.
Proof.
  intros (l & r & -> & Hl & Hr & Hhead & Hlast). unfold strip.
  rewrite (lstrip_spaces _ _ Hl). destruct t as [|c t].
  - simpl. rewrite (lstrip_all_spaces _ Hr). done.
  - rewrite (lstrip_id ((c :: t) ++ r)) by (intros c' [= <-]; by apply Hhead).
    unfold rstrip. rewrite reverse_app, lstrip_spaces by by apply Forall_reverse.
    rewrite lstrip_id; [apply reverse_involutive|].
    intros c'. rewrite head_reverse. apply Hlast.
Qed.

Lemma first_cut_unique (c : N) (a a' b b' : pystr) :
  a ++ c :: b = a' ++ c :: b' → c ∉ a → c ∉ a' → a = a' ∧ b = b'.
Proof.
  revert a'. induction a as [|x a IH]; intros [|x' a']; simpl.
  - by intros [= ->].
  - intros [= <- _] _ Hn. by apply not_elem_of_cons in Hn as [? _].
  - intros [= -> _] Hn. by apply not_elem_of_cons in Hn as [? _].
  - intros [= <- Heq] [_ Hn]%not_elem_of_cons [_ Hn']%not_elem_of_cons.
    destruct (IH a' Heq Hn Hn') as [-> ->]. done.
Qed.

Lemma contains_elem_of (c : N) (s : pystr) : contains c s = true ↔ c ∈ s.
Proof.
  unfold contains. induction s as [|x s IH]; simpl.
  - split; [done|]. by intros ?%not_elem_of_nil.
  - rewrite orb_true_iff, IH, N.eqb_eq, elem_of_cons. done.
Qed.

Lemma split1_go_spec (c : N) (cur s : pystr) :
  ((c ∉ s) ∧ split1_go c cur s = [reverse cur ++ s])
  ∨ ∃ number rest, s = number ++ c :: rest ∧ (c ∉ number)
       ∧ split1_go c cur s = [reverse cur ++ number; rest].
Proof.
  revert cur. induction s as [|x s IH]; intros cur; simpl.
  - left. split; [apply not_elem_of_nil|by rewrite app_nil_r].
  - destruct (N.eqb_spec x c) as [->|Hx].
    + right. exists [], s. split_and!; [done|apply not_elem_of_nil|by rewrite app_nil_r].
    + destruct (IH (x :: cur)) as [[Hn ->]|(number & rest & -> & Hn & ->)].
      * left. split; [|by rewrite reverse_cons, <-app_assoc].
        rewrite not_elem_of_cons. done.
      * right. exists (x :: number), rest. split_and!; [done| |by rewrite reverse_cons, <-app_assoc].
        rewrite not_elem_of_cons. done.
Qed.

Lemma startswith_cut (p s : pystr) :
  startswith p s = true → s = p ++ drop (length p) s.
Proof.
  revert s. induction p as [|a p IH]; intros [|b s]; simpl; try done.
  intros [->%N.eqb_eq Hp]%andb_true_iff. f_equal. by apply IH.
Qed.

Lemma split_go_nonempty (sep : pystr) (skip : nat) (cur s : pystr) :
  split_go sep skip cur s ≠ [].
Proof.
  revert skip cur. induction s as [|c s IH]; intros [|k] cur; simpl; try done.
  by destruct (startswith sep (c :: s)).
Qed.

Lemma join_cons (sep p : pystr) (parts : list pystr) :
  parts ≠ [] → join sep (p :: parts) = p ++ sep ++ join sep parts.
Proof. by destruct parts. Qed.

Lemma split_go_join (sep : pystr) (skip : nat) (cur s : pystr) :
  sep ≠ [] → join sep (split_go sep skip cur s) = reverse cur ++ drop skip s.
Proof.
  intros Hsep. revert skip cur.
  induction s as [|c s IH]; intros skip cur.
  - simpl. by rewrite drop_nil, app_nil_r.
  - destruct skip as [|k]; [|exact (IH k cur)].
    cbn [split_go]. destruct (startswith sep (c :: s)) eqn:Hs.
    + rewrite join_cons by apply split_go_nonempty. rewrite IH. f_equal.
      apply startswith_cut in Hs. destruct sep as [|a sep]; [done|].
      simpl in Hs |- *. injection Hs as <- Hs. rewrite Nat.sub_0_r. by f_equal.
    + rewrite IH, reverse_cons, <-app_assoc. done.
Qed.

(** Joining the pieces of a split with the separator gives the text back. *)
Lemma join_split (sep s : pystr) : sep ≠ [] → join sep (split sep s) = s.
Proof. intros Hsep. unfold split. by rewrite split_go_join. Qed.

Example split_blank_lines :
  split [10; 10]%N (lit "a" ++ [10; 10] ++ lit "b" ++ [10; 10; 10] ++ lit "c" ++ [10; 10])%N
  = [lit "a"; lit "b"; 10%N :: lit "c"; []].
Proof. reflexivity. Qed.

Example split_empty : split [10; 10]%N [] = [[]].
Proof. reflexivity. Qed.

Example strip_ideographic_space :
  strip ([12288; 32] ++ lit "a b" ++ [9; 10; 160])%N = lit "a b".
Proof. reflexivity. Qed.

Lemma startswith_head (c : N) (s : pystr) : startswith [c] s = true ↔ head s = Some c.
Proof.
  destruct s as [|x s]; simpl; [done|]. rewrite andb_true_r, N.eqb_eq. naive_solver.
Qed.

End StrFacts.

Section PatcherFacts.
Import Patcher Spec.

Lemma py_eq_hashable (a b : value) (ka kb : key) :
  py_key a = Some ka → py_key b = Some kb → py_eq a b = bool_decide (ka = kb).
Proof.
  destruct a as [|x|x|x|x|x], b as [|y|y|y|y|y]; simpl; intros [= <-] [= <-];
    try done; apply bool_decide_ext; try naive_solver.
  destruct x, y; naive_solver.
Qed.

Lemma py_eq_str (v : value) (s : pystr) : py_eq v (VStr s) = true ↔ v = VStr s.
Proof.
  destruct v; simpl; try (split; [done|by intros [=]]).
  rewrite bool_decide_eq_true. naive_solver.
Qed.

Lemma same_id_keys (a b : obj) (ka kb : key) :
  item_key a = Some ka → item_key b = Some kb → same_id a b = bool_decide (ka = kb).
Proof.
  unfold item_key, same_id. destruct (a !! k_id), (b !! k_id); simpl; try done.
  apply py_eq_hashable.
Qed.

Lemma getitem_hash (o : obj) :
  (v ← getitem o k_id; hash v) =
  match o !! k_id with
  | None => Raise (KeyError k_id)
  | Some v => match item_key o with Some k => Ok k | None => Raise TypeError end
  end.
Proof.
  unfold getitem, hash, item_key. destruct (o !! k_id) as [v|]; simpl; [|done].
  by destruct (py_key v).
Qed.

Lemma build_map_spec (items : list obj) (m m' : gmap key obj) :
  build_map items m = Ok m' →
  Forall keyed items
  ∧ ∀ k, m' !! k = match last (filter (λ item, item_key item = Some k) items) with
                   | Some item => Some item
                   | None => m !! k
                   end.
Proof.
  revert m. induction items as [|item items IH]; intros m; simpl.
  - intros [= <-]. split; [constructor|done].
  - unfold getitem, hash, item_key, keyed.
    destruct (item !! k_id) as [v|] eqn:Hv; simpl; [|done].
    destruct (py_key v) as [k|] eqn:Hk; simpl; [|done].
    intros [Hall Hm']%IH. split.
    + constructor; [|done]. unfold item_key. rewrite Hv. simpl. by rewrite Hk.
    + intros k'. rewrite Hm', filter_cons. unfold item_key at 2. rewrite Hv. simpl. rewrite Hk.
      case_decide as Hkk.
      * injection Hkk as ->. rewrite last_cons. rewrite lookup_insert_eq.
        by destruct (last _).
      * rewrite lookup_insert_ne by congruence. done.
Qed.

Lemma build_map_total (items : list obj) (m : gmap key obj) :
  Forall keyed items → ∃ m', build_map items m = Ok m'.
Proof.
  intros Hall. revert m. induction Hall as [|item items [k Hk] _ IH]; intros m; simpl.
  - by eexists.
  - unfold item_key in Hk. unfold getitem, hash.
    destruct (item !! k_id) as [v|]; simpl in *; [|done]. rewrite Hk. simpl. apply IH.
Qed.

Lemma filter_agree {A} (P Q : A → Prop) `{!∀ x, Decision (P x)} `{!∀ x, Decision (Q x)}
    (l : list A) :
  Forall (λ x, P x ↔ Q x) l → filter P l = filter Q l.
Proof.
  induction 1 as [|x l Hx _ IH]; [done|].
  rewrite !filter_cons, IH. repeat case_decide; tauto.
Qed.

Lemma consulted_by_key (items : list obj) (tweet : obj) (k : key) :
  Forall keyed items → item_key tweet = Some k →
  consulted_record items tweet = last (filter (λ item, item_key item = Some k) items).
Proof.
  intros Hall Hk. unfold consulted_record. f_equal. apply filter_agree.
  eapply Forall_impl; [exact Hall|]. intros item [k' Hk']. simpl.
  rewrite (same_id_keys _ _ _ _ Hk' Hk), bool_decide_spec, Hk'. naive_solver.
Qed.

Lemma needs_translation_untranslated (record : obj) :
  needs_translation (Some record) = untranslated record.
Proof.
  unfold needs_translation, untranslated.
  destruct (record !! k_translation) as [[| | |[|c s]| |]|]; simpl; try done;
    by case_bool_decide.
Qed.

Lemma is_english_spec (tweet : obj) (lang : value) :
  tweet !! k_lang = Some lang → py_eq lang (VStr (lit "en")) = is_english tweet.
Proof. intros Hl. unfold is_english. rewrite Hl. by destruct lang. Qed.

Lemma filter_cons_bool {A} (f : A → bool) (x : A) (l : list A) :
  filter (λ y, f y) (x :: l) = if f x then x :: filter (λ y, f y) l else filter (λ y, f y) l.
Proof. rewrite filter_cons. by destruct (f x). Qed.

Lemma eligible_by_map (m : gmap key obj) (items : list obj) (tweet : obj) (k : key) :
  Forall keyed items →
  (∀ k, m !! k = last (filter (λ item, item_key item = Some k) items)) →
  item_key tweet = Some k →
  eligible items tweet = is_english tweet && needs_translation (m !! k).
Proof.
  intros Hall Hm Hkey. unfold eligible.
  rewrite (consulted_by_key _ _ _ Hall Hkey), <-Hm.
  destruct (m !! k); [by rewrite needs_translation_untranslated|done].
Qed.

Lemma find_work_spec (m : gmap key obj) (items tweets wl : list obj) :
  Forall keyed items →
  (∀ k, m !! k = last (filter (λ item, item_key item = Some k) items)) →
  find_work m tweets = Ok wl →
  wl = filter (λ tweet, eligible items tweet) tweets ∧ Forall keyed wl.
Proof.
  intros Hall Hm. revert wl. induction tweets as [|tweet tweets IH]; intros wl; simpl.
  - intros [= <-]. by split.
  - unfold getitem, hash. destruct (tweet !! k_lang) as [lang|] eqn:Hlang; simpl; [|done].
    rewrite (is_english_spec _ _ Hlang), filter_cons_bool.
    destruct (is_english tweet) eqn:Hen; simpl.
    2: { unfold eligible. rewrite Hen. exact (IH wl). }
    destruct (tweet !! k_id) as [v|] eqn:Hv; simpl; [|done].
    destruct (py_key v) as [k|] eqn:Hk; simpl; [|done].
    assert (item_key tweet = Some k) as Hkey.
    { unfold item_key. rewrite Hv. simpl. done. }
    rewrite (eligible_by_map _ _ _ _ Hall Hm Hkey), Hen. simpl.
    destruct (needs_translation (m !! k)); [|apply IH].
    destruct (find_work m tweets) as [more|] eqn:Hmore; simpl; [|done].
    intros [= <-]. destruct (IH more eq_refl) as [-> ?].
    split; [done|]. constructor; [by eexists|done].
Qed.

Lemma worklist_spec (tweets items wl : list obj) :
  worklist tweets items = Ok wl →
  wl = filter (λ tweet, eligible items tweet) tweets
  ∧ Forall keyed wl ∧ Forall keyed items.
Proof.
  unfold worklist. destruct (build_map items ∅) as [m|] eqn:Hm; simpl; [|done].
  apply build_map_spec in Hm as [Hall Hm]. intros Hwl.
  eapply find_work_spec in Hwl as [-> ?]; [done|done|].
  intros k. rewrite Hm, lookup_empty. by destruct (last _).
Qed.

Lemma find_work_total (m : gmap key obj) (tweets : list obj) :
  scannable tweets → ∃ wl, find_work m tweets = Ok wl.
Proof.
  induction 1 as [|tweet tweets [[lang Hlang] Hkey] _ [wl IH]]; simpl; [by eexists|].
  unfold getitem, hash. rewrite Hlang. simpl. rewrite (is_english_spec _ _ Hlang).
  destruct (is_english tweet); [|by eexists].
  destruct Hkey as [k Hk]; [done|]. unfold item_key in Hk.
  destruct (tweet !! k_id) as [v|]; simpl in *; [|done]. rewrite Hk. simpl.
  rewrite IH. simpl. destruct (needs_translation _); by eexists.
Qed.

Lemma worklist_total (tweets items : list obj) :
  Forall keyed items → scannable tweets → ∃ wl, worklist tweets items = Ok wl.
Proof.
  intros [m Hm]%(build_map_total _ ∅) Hs. unfold worklist. rewrite Hm. simpl.
  by apply find_work_total.
Qed.

Lemma texts_of_spec (batch : list obj) (texts : list value) :
  texts_of batch = Ok texts → Forall2 (λ tweet v, tweet !! k_text = Some v) batch texts.
Proof.
  revert texts. induction batch as [|t batch IH]; intros texts; simpl.
  - intros [= <-]. constructor.
  - unfold getitem. destruct (t !! k_text) as [v|] eqn:Hv; simpl; [|done].
    destruct (texts_of batch) as [more|]; simpl; [|done].
    intros [= <-]. constructor; [done|by apply IH].
Qed.

Lemma as_strs_spec (texts : list value) (strs : list pystr) :
  as_strs texts = Ok strs → texts = VStr <$> strs.
Proof.
  revert strs. induction texts as [|v texts IH]; intros strs; simpl.
  - by intros [= <-].
  - destruct v; try done. destruct (as_strs texts) as [more|]; simpl; [|done].
    intros [= <-]. simpl. f_equal. by apply IH.
Qed.

(** The outcome of the script, stage by stage. *)
Lemma main_cases (e : env) (mem : memory) :
  main e mem =
  if bool_decide (api_key e = None ∨ api_key e = Some [])
  then ([Print MissingApiKey], Raise (SystemExit 1))
  else if negb (openai_installed e)
  then ([Print MissingOpenAI], Raise (SystemExit 1))
  else
    match worklist (raw mem) (analyzed mem) with
    | Raise x => ([], Raise x)
    | Ok [] => ([Print (Found 0); Print NoWork], Ok mem)
    | Ok wl =>
        let batch := take 20 wl in
        match texts_of batch ≫= join_texts with
        | Raise x => ([Print (Found (length wl))], Raise x)
        | Ok payload =>
            match service e payload with
            | Raise x => ([Print (Found (length wl)); Request payload], Raise x)
            | Ok content =>
                match update_loop 0 batch (split blank_line content) (analyzed mem) with
                | Raise x => ([Print (Found (length wl)); Request payload], Raise x)
                | Ok items' =>
                    if dumpable items'
                    then ([Print (Found (length wl)); Request payload; Truncate;
                           Dump items'; Print (Translated (length batch))],
                          Ok {| raw := raw mem; analyzed := items' |})
                    else ([Print (Found (length wl)); Request payload; Truncate],
                          Raise UnicodeEncodeError)
                end
            end
        end
    end.
Proof.
  unfold main. set (first_20 := @take obj 20). clearbody first_20.
  unfold mbind, proc_bind, result_bind, lift, emit, exit, mret, proc_ret.
  case_bool_decide; [done|].
  destruct (openai_installed e); [|done]. simpl.
  destruct (worklist _ _) as [[|tweet wl]|]; [done| |done]. simpl.
  destruct (texts_of _) as [texts|]; simpl; [|done].
  destruct (join_texts texts) as [payload|]; simpl; [|done].
  destruct (service e payload) as [content|]; simpl; [|done].
  destruct (update_loop _ _ _ _) as [items'|]; simpl; [|done].
  unfold json_dump. by destruct (dumpable items').
Qed.

Lemma join_texts_spec (batch : list obj) (payload : pystr) :
  texts_of batch ≫= join_texts = Ok payload →
  ∃ strs, payload = join blank_line strs
          ∧ Forall2 (λ tweet s, tweet !! k_text = Some (VStr s)) batch strs.
Proof.
  destruct (texts_of batch) as [texts|] eqn:Ht; simpl; [|done].
  unfold join_texts. destruct (as_strs texts) as [strs|] eqn:Hs; simpl; [|done].
  intros [= <-]. exists strs. split; [done|].
  apply texts_of_spec in Ht. apply as_strs_spec in Hs as ->.
  by apply Forall2_fmap_r in Ht.
Qed.

(** C1: the worklist is the list of the eligible tweets (English, and
    the consulted analysis record absent or without a translation) in
    stored order; the number printed is its length; the request that is
    sent joins the texts of its first 20 entries, in order; and the
    worklist is computed whenever every record has a hashable identifier
    and every tweet a language. *)
Theorem C1_worklist_and_batch (e : env) (mem : memory) :
  let tweets := raw mem in
  let items := analyzed mem in
  (∀ wl, worklist tweets items = Ok wl →
         wl = filter (λ tweet, eligible items tweet) tweets)
  ∧ (∀ n, Print (Found n) ∈ (main e mem).1 →
          n = length (filter (λ tweet, eligible items tweet) tweets))
  ∧ (∀ payload, Request payload ∈ (main e mem).1 →
       ∃ strs, payload = join blank_line strs
         ∧ length strs ≤ 20
         ∧ Forall2 (λ tweet s, tweet !! k_text = Some (VStr s))
             (take 20 (filter (λ tweet, eligible items tweet) tweets)) strs)
  ∧ (Forall keyed items → scannable tweets → ∃ wl, worklist tweets items = Ok wl).
Proof.
  intros tweets items. split_and!.
  - by intros wl [-> _]%worklist_spec.
  - intros n. rewrite main_cases. fold tweets items.
    case_bool_decide; [by intros [=]%list_elem_of_singleton|].
    destruct (openai_installed e); simpl; [|by intros [=]%list_elem_of_singleton].
    destruct (worklist tweets items) as [wl|] eqn:Hwl; [|by intros ?%not_elem_of_nil].
    apply worklist_spec in Hwl as [<- _].
    destruct wl as [|tweet wl]; [set_solver|].
    destruct (_ ≫= join_texts) as [payload|]; [|set_solver].
    destruct (service e payload) as [content|]; [|set_solver].
    destruct (update_loop _ _ _ _) as [items'|]; [destruct (dumpable items')|];
      set_solver.
  - intros payload. rewrite main_cases. fold tweets items.
    case_bool_decide; [by intros [=]%list_elem_of_singleton|].
    destruct (openai_installed e); simpl; [|by intros [=]%list_elem_of_singleton].
    destruct (worklist tweets items) as [wl|] eqn:Hwl; [|by intros ?%not_elem_of_nil].
    apply worklist_spec in Hwl as [<- _].
    destruct wl as [|tweet wl]; [set_solver|].
    destruct (_ ≫= join_texts) as [payload'|] eqn:Hp; [|set_solver].
    apply join_texts_spec in Hp as (strs & -> & Hstrs).
    assert (length strs ≤ 20).
    { rewrite <-(Forall2_length _ _ _ Hstrs), length_take. lia. }
    destruct (service e _) as [content|]; [|set_solver].
    destruct (update_loop _ _ _ _) as [items'|]; [destruct (dumpable items')|];
      set_solver.
  - apply worklist_total.
Qed.

Lemma C1_worklist_and_batch_witness :
  worklist (raw mixed) (analyzed mixed) = Ok [tweet_of 1 "en" "hello"; tweet_of 3 "en" "bye"]
  ∧ filter (λ tweet, eligible (analyzed mixed) tweet) (raw mixed)
    = [tweet_of 1 "en" "hello"; tweet_of 3 "en" "bye"].
Proof.
  assert (worklist (raw mixed) (analyzed mixed)
          = Ok [tweet_of 1 "en" "hello"; tweet_of 3 "en" "bye"]) as Hwl
    by (vm_compute; reflexivity).
  split; [exact Hwl|].
  destruct (C1_worklist_and_batch (answering nihao) mixed) as (Hspec & _).
  symmetry. exact (Hspec _ Hwl).
Defined.

Lemma clean_cleaned (segment : pystr) : ∃ u, clean segment = Ok u ∧ cleaned segment u.
Proof.
  unfold clean. pose proof (strip_trimmed segment) as Ht.
  destruct (startswith [bracket_open] (strip segment)) eqn:Hopen.
  - apply startswith_head in Hopen.
    destruct (contains bracket_close (strip segment)) eqn:Hclose.
    + apply contains_elem_of in Hclose.
      destruct (split1_go_spec bracket_close [] (strip segment))
        as [[Hn _]|(number & rest & Hs & Hn & Hsplit)]; [done|].
      unfold split1. rewrite Hsplit. simpl.
      eexists. split; [done|].
      eapply cleaned_numbered; [exact Ht|exact Hopen|exact Hs|exact Hn|].
      apply strip_trimmed.
    + eexists. split; [done|]. apply cleaned_unterminated; [done..|].
      rewrite <-contains_elem_of. by rewrite Hclose.
  - eexists. split; [done|]. apply cleaned_plain; [done|].
    rewrite <-startswith_head. by rewrite Hopen.
Qed.

Lemma cleaned_clean (segment u : pystr) : cleaned segment u → clean segment = Ok u.
Proof.
  unfold clean.
  intros [t Ht Hopen|t Ht Hopen Hclose|t number rest u' Ht Hopen Hcut Hn Hu];
    rewrite (trimmed_strip _ _ Ht).
  - destruct (startswith [bracket_open] t) eqn:Hs; [|done].
    by apply startswith_head in Hs.
  - apply startswith_head in Hopen. rewrite Hopen.
    destruct (contains bracket_close t) eqn:Hc; [|done].
    by apply contains_elem_of in Hc.
  - apply startswith_head in Hopen. rewrite Hopen.
    assert (contains bracket_close t = true) as ->.
    { apply contains_elem_of. rewrite Hcut. apply elem_of_app. right. by left. }
    destruct (split1_go_spec bracket_close [] t)
      as [[Habsent _]|(number' & rest' & Hcut' & Hn' & Hsplit)].
    { exfalso. apply Habsent. rewrite Hcut. apply elem_of_app. right. by left. }
    rewrite Hcut in Hcut'. destruct (first_cut_unique _ _ _ _ _ Hcut' Hn Hn') as [<- <-].
    unfold split1. rewrite Hsplit. simpl. by rewrite (trimmed_strip _ _ Hu).
Qed.

(** C4: cleaning a response segment never raises, and its result is the
    text that the specification describes and no other; the three
    documented examples come out as documented. *)
Theorem C4_clean (segment : pystr) :
  (∃ u, clean segment = Ok u)
  ∧ (∀ u, clean segment = Ok u ↔ cleaned segment u)
  ∧ clean (lit "[3] " ++ nihao) = Ok nihao
  ∧ clean nihao = Ok nihao
  ∧ clean (lit "[unterminated") = Ok (lit "[unterminated").
Proof.
  destruct (clean_cleaned segment) as (u & Hu & Hc).
  split_and!; [by exists u| |by vm_compute..].
  intros u'. split; [|apply cleaned_clean].
  rewrite Hu. by intros [= <-].
Qed.

(** *** The update loop *)

Lemma keyed_has_id (o : obj) : keyed o → has_id o.
Proof. unfold keyed, item_key, has_id. destruct (o !! k_id); [by eexists|by intros [? [=]]]. Qed.

Lemma has_id_ids (items : list obj) : Forall has_id items ↔ Forall is_Some (ids items).
Proof. unfold ids. by rewrite Forall_fmap. Qed.

Lemma scanned_cons (item : obj) (items : list obj) (tweet : obj) :
  scanned_record (item :: items) tweet =
  if same_id item tweet then Some (0, item)
  else prod_map S id <$> scanned_record items tweet.
Proof. unfold scanned_record. simpl. by destruct (same_id item tweet). Qed.

Lemma set_translation_spec (tweet : obj) (u : pystr) (items : list obj) :
  Forall has_id items → (items ≠ [] → has_id tweet) →
  set_translation tweet u items = Ok (set_first tweet u items).
Proof.
  intros Hall Ht. induction Hall as [|item items [a Ha] _ IH]; [done|].
  destruct Ht as [b Hb]; [done|].
  simpl. unfold getitem, set_first. rewrite Ha, Hb, scanned_cons. simpl.
  unfold same_id at 1. rewrite Ha, Hb.
  destruct (py_eq a b); [done|].
  rewrite IH by (intros _; by eexists). simpl. unfold set_first.
  by destruct (scanned_record items tweet) as [[j r]|].
Qed.

Lemma with_translation_id (u : pystr) (record : obj) :
  with_translation u record !! k_id = record !! k_id.
Proof. unfold with_translation. by rewrite lookup_insert_ne. Qed.

Lemma set_first_ids (tweet : obj) (u : pystr) (items : list obj) :
  ids (set_first tweet u items) = ids items.
Proof.
  unfold set_first. destruct (scanned_record items tweet) as [[j r]|] eqn:Hs; [|done].
  apply list_find_Some in Hs as (Hj & _). unfold ids.
  rewrite list_fmap_insert, with_translation_id. by apply list_insert_id, list_lookup_fmap_Some_2.
Qed.

Lemma clean_text_ok (segment : pystr) : clean segment = Ok (clean_text segment).
Proof. unfold clean_text. by destruct (clean_cleaned segment) as (u & -> & _). Qed.

Lemma foldl_step_ids (pairs : list (obj * pystr)) (items : list obj) :
  ids (foldl step items pairs) = ids items.
Proof.
  revert items. induction pairs as [|p pairs IH]; intros items; simpl; [done|].
  rewrite IH. apply set_first_ids.
Qed.

Lemma update_loop_spec (i : nat) (batch : list obj) (translations : list pystr)
    (items : list obj) :
  Forall has_id items → Forall has_id batch →
  update_loop i batch translations items
  = Ok (foldl step items (zip batch (drop i translations))).
Proof.
  intros Hitems Hbatch. revert i items Hitems.
  induction Hbatch as [|tweet batch Ht _ IH]; intros i items Hitems; simpl; [done|].
  case_bool_decide as Hi.
  - destruct (lookup_lt_is_Some_2 translations i Hi) as [segment Hseg].
    unfold index. rewrite Hseg. simpl. rewrite clean_text_ok. simpl.
    rewrite set_translation_spec by done. simpl.
    rewrite (drop_S _ _ _ Hseg). simpl. apply IH.
    apply (proj2 (has_id_ids _)). unfold step. rewrite set_first_ids. by apply (proj1 (has_id_ids _)).
  - simpl. rewrite IH by done. rewrite !drop_ge by lia. by rewrite !zip_with_nil_r.
Qed.

Lemma scanned_ids (items items' : list obj) (tweet : obj) :
  ids items = ids items' →
  fst <$> scanned_record items tweet = fst <$> scanned_record items' tweet.
Proof.
  revert items'. induction items as [|x l IH]; intros [|x' l']; try done.
  intros Hids. rewrite !scanned_cons. unfold ids in Hids. simpl in Hids.
  injection Hids as Hx Hl. specialize (IH l' Hl).
  assert (same_id x tweet = same_id x' tweet) as -> by (unfold same_id; by rewrite Hx).
  destruct (same_id x' tweet); [done|].
  destruct (scanned_record l tweet) as [[]|], (scanned_record l' tweet) as [[]|];
    simpl in *; congruence.
Qed.

Lemma foldl_step_frame (pairs : list (obj * pystr)) (items : list obj) (j : nat) :
  (∀ p, p ∈ pairs → fst <$> scanned_record items p.1 ≠ Some j) →
  foldl step items pairs !! j = items !! j.
Proof.
  revert items. induction pairs as [|p pairs IH]; intros items Hp; simpl; [done|].
  rewrite IH.
  - unfold step, set_first. destruct (scanned_record items p.1) as [[j' r]|] eqn:Hs; [|done].
    apply list_lookup_insert_ne. intros ->. eapply (Hp p); [by left|]. by rewrite Hs.
  - intros q Hq. rewrite (scanned_ids _ items); [apply Hp; by right|]. apply set_first_ids.
Qed.

Lemma foldl_step_hit (before after : list (obj * pystr)) (tweet : obj) (segment : pystr)
    (items : list obj) (j : nat) (record : obj) :
  scanned_record items tweet = Some (j, record) →
  (∀ p, p ∈ before ++ after → fst <$> scanned_record items p.1 ≠ Some j) →
  foldl step items (before ++ (tweet, segment) :: after) !! j
  = Some (with_translation (clean_text segment) record).
Proof.
  intros Hs Hp. rewrite foldl_app. simpl.
  set (items1 := foldl step items before).
  assert (ids items1 = ids items) as Hids by apply foldl_step_ids.
  assert (items1 !! j = Some record) as Hj.
  { unfold items1. rewrite foldl_step_frame.
    - by apply list_find_Some in Hs as (? & _).
    - intros p ?. apply Hp, elem_of_app. by left. }
  assert (scanned_record items1 tweet = Some (j, record)) as Hs1.
  { pose proof (scanned_ids _ _ tweet Hids) as Hfst. rewrite Hs in Hfst.
    destruct (scanned_record items1 tweet) as [[j' r']|] eqn:Hs'; [|done].
    injection Hfst as ->. apply list_find_Some in Hs' as (Hj' & _). congruence. }
  rewrite foldl_step_frame.
  - unfold step at 1, set_first. simpl. rewrite Hs1.
    apply list_lookup_insert_eq. by eapply lookup_lt_Some.
  - intros p ?. rewrite (scanned_ids _ items).
    + apply Hp, elem_of_app. by right.
    + unfold step. by rewrite set_first_ids.
Qed.

Lemma scanned_distinct (items : list obj) (t1 t2 : obj) (j : nat) (record : obj) :
  Forall keyed items → keyed t1 → keyed t2 → item_key t1 ≠ item_key t2 →
  scanned_record items t1 = Some (j, record) →
  fst <$> scanned_record items t2 ≠ Some j.
Proof.
  intros Hitems [k1 Hk1] [k2 Hk2] Hne Hs1 Hs2.
  destruct (scanned_record items t2) as [[j' r']|] eqn:Hs2'; [|done].
  injection Hs2 as ->.
  apply list_find_Some in Hs1 as (Hj & Hsame1 & _).
  apply list_find_Some in Hs2' as (Hj' & Hsame2 & _).
  assert (r' = record) as -> by congruence.
  destruct (proj1 (Forall_forall _ _) Hitems record) as [k Hk].
  { by eapply list_elem_of_lookup_2. }
  rewrite (same_id_keys _ _ _ _ Hk Hk1) in Hsame1.
  rewrite (same_id_keys _ _ _ _ Hk Hk2) in Hsame2.
  apply bool_decide_unpack in Hsame1, Hsame2. congruence.
Qed.

Lemma loop_positions (items batch : list obj) (translations : list pystr) :
  Forall keyed items → Forall keyed batch → NoDup (item_key <$> batch) →
  let items' := foldl step items (zip batch translations) in
  length items' = length items
  ∧ (∀ i tweet segment j record,
       batch !! i = Some tweet → translations !! i = Some segment →
       scanned_record items tweet = Some (j, record) →
       items' !! j = Some (with_translation (clean_text segment) record))
  ∧ (∀ j, (∀ i tweet, i < length translations → batch !! i = Some tweet →
                      fst <$> scanned_record items tweet ≠ Some j) →
          items' !! j = items !! j).
Proof.
  intros Hitems Hbatch Hnd items'. split_and!.
  - rewrite <-(length_fmap (λ o : obj, o !! k_id) items').
    rewrite <-(length_fmap (λ o : obj, o !! k_id) items). f_equal. apply foldl_step_ids.
  - intros i tweet segment j record Hi Hseg Hs.
    assert (zip batch translations !! i = Some (tweet, segment)) as Hp.
    { apply lookup_zip_with_Some. by exists tweet, segment. }
    unfold items'. rewrite <-(take_drop_middle _ _ _ Hp).
    apply foldl_step_hit; [done|]. intros [tweet' segment'] Hin. simpl.
    assert (∃ i', i' ≠ i ∧ batch !! i' = Some tweet') as (i' & Hne & Hi').
    { apply elem_of_app in Hin as [Hin|Hin]; apply list_elem_of_lookup in Hin as [n Hn].
      - apply lookup_take_Some in Hn as [Hn Hlt].
        apply lookup_zip_with_Some in Hn as (? & ? & [= <- <-] & ? & ?).
        exists n. split; [lia|done].
      - rewrite lookup_drop in Hn.
        apply lookup_zip_with_Some in Hn as (? & ? & [= <- <-] & ? & ?).
        exists (S i + n). split; [lia|done]. }
    apply (scanned_distinct items tweet tweet' j record); try done.
    + eapply Forall_lookup_1; [exact Hbatch|exact Hi].
    + eapply Forall_lookup_1; [exact Hbatch|exact Hi'].
    + intros Heq. apply Hne. eapply NoDup_lookup; [exact Hnd| |].
      * rewrite list_lookup_fmap, Hi'. simpl. by rewrite <-Heq.
      * by rewrite list_lookup_fmap, Hi.
  - intros j Hj. apply foldl_step_frame. intros [tweet segment] Hin. simpl.
    apply list_elem_of_lookup in Hin as [i Hi].
    apply lookup_zip_with_Some in Hi as (? & ? & [= <- <-] & Hi & Hseg).
    eapply Hj; [|exact Hi]. by eapply lookup_lt_Some.
Qed.

Lemma main_responds (e : env) (mem : memory) (batch : list obj) (content : pystr) :
  responds e mem batch content →
  let items' := foldl step (analyzed mem) (zip batch (split blank_line content)) in
  Forall keyed (analyzed mem) ∧ Forall keyed batch
  ∧ update_loop 0 batch (split blank_line content) (analyzed mem) = Ok items'
  ∧ ∃ n payload,
      main e mem =
      if dumpable items'
      then ([Print (Found n); Request payload; Truncate; Dump items';
             Print (Translated (length batch))],
            Ok {| raw := raw mem; analyzed := items' |})
      else ([Print (Found n); Request payload; Truncate], Raise UnicodeEncodeError).
Proof.
  intros [(Hk1 & Hk2 & Hlib) (wl & payload & Hwl & Hne & -> & Hp & Hc)] items'.
  pose proof (worklist_spec _ _ _ Hwl) as (_ & Hkwl & Hkitems).
  assert (Forall keyed (take 20 wl)) as Hkb by by apply Forall_take.
  assert (update_loop 0 (take 20 wl) (split blank_line content) (analyzed mem)
          = Ok items') as Hloop.
  { rewrite update_loop_spec; [done| |].
    - eapply Forall_impl; [exact Hkitems|apply keyed_has_id].
    - eapply Forall_impl; [exact Hkb|apply keyed_has_id]. }
  split_and!; [done..|]. exists (length wl), payload.
  rewrite main_cases, bool_decide_eq_false_2 by tauto. rewrite Hlib, Hwl. simpl.
  destruct wl as [|tweet wl]; [done|]. rewrite Hp, Hc. cbv zeta.
  by rewrite Hloop.
Qed.

(** What a run that was answered and came to its end has done. *)
Lemma main_responds_done (e : env) (mem mem' : memory) (batch : list obj)
    (content : pystr) :
  responds e mem batch content →
  (main e mem).2 = Ok mem' →
  let items' := foldl step (analyzed mem) (zip batch (split blank_line content)) in
  mem' = {| raw := raw mem; analyzed := items' |}
  ∧ dumpable items' = true
  ∧ Dump items' ∈ (main e mem).1
  ∧ persisted (analyzed mem) (main e mem).1 = Some items'.
Proof.
  intros Hr Hdone items'.
  destruct (main_responds _ _ _ _ Hr) as (_ & _ & _ & n & payload & Hmain).
  fold items' in Hmain. rewrite Hmain in Hdone |- *.
  destruct (dumpable items'); [|done]. simpl in Hdone. injection Hdone as <-.
  split_and!; [done|done|set_solver|done].
Qed.

(** C3 (amended): when the response has fewer segments than the batch
    has tweets and the identifiers of the batch are distinct, the update
    loop raises nothing; the record of the Nth tweet, for N within the
    segments, gets the Nth segment, cleaned; the records of the later
    tweets, and every record that is not the scanned record of one of
    the first tweets, are as before; and a run that comes to its end has
    written that collection and ends with it. *)
Theorem C3_short_response (e : env) (mem : memory) (batch : list obj) (content : pystr) :
  responds e mem batch content →
  NoDup (item_key <$> batch) →
  length (split blank_line content) < length batch →
  let translations := split blank_line content in
  let items := analyzed mem in
  ∃ items',
    update_loop 0 batch translations items = Ok items'
    ∧ (∀ mem', (main e mem).2 = Ok mem' →
               mem' = {| raw := raw mem; analyzed := items' |}
               ∧ Dump items' ∈ (main e mem).1)
    ∧ length items' = length items
    ∧ (∀ i tweet segment j record,
         batch !! i = Some tweet → translations !! i = Some segment →
         scanned_record items tweet = Some (j, record) →
         ∃ u, clean segment = Ok u ∧ items' !! j = Some (with_translation u record))
    ∧ (∀ i tweet j record,
         length translations ≤ i → batch !! i = Some tweet →
         scanned_record items tweet = Some (j, record) →
         items' !! j = Some record)
    ∧ (∀ j, (∀ i tweet, i < length translations → batch !! i = Some tweet →
                        fst <$> scanned_record items tweet ≠ Some j) →
            items' !! j = items !! j).
Proof.
  intros Hr Hnd Hshort translations items.
  destruct (main_responds _ _ _ _ Hr) as (Hitems & Hbatch & Hloop & _).
  destruct (loop_positions items batch translations Hitems Hbatch Hnd)
    as (Hlen & Hhit & Hframe).
  exists (foldl step items (zip batch translations)).
  split_and!; [exact Hloop| |done| | |done].
  - intros mem' Hdone.
    destruct (main_responds_done _ _ _ _ _ Hr Hdone) as (Hmem & _ & Hdump & _).
    by split.
  - intros i tweet segment j record Hi Hseg Hs. exists (clean_text segment).
    split; [apply clean_text_ok|by eapply Hhit].
  - intros i tweet j record Hge Hi Hs. rewrite Hframe.
    { by apply list_find_Some in Hs as (? & _). }
    intros i' tweet' Hlt Hi'. eapply scanned_distinct; try done.
    + eapply Forall_lookup_1; [exact Hbatch|exact Hi].
    + eapply Forall_lookup_1; [exact Hbatch|exact Hi'].
    + intros Heq. assert (i = i'); [|lia]. eapply NoDup_lookup; [exact Hnd| |].
      * by rewrite list_lookup_fmap, Hi.
      * rewrite list_lookup_fmap, Hi'. simpl. by rewrite <-Heq.
Qed.

Lemma two_tweets_respond (content : pystr) :
  responds (answering content) two_tweets (raw two_tweets) content.
Proof.
  split; [by split_and!|].
  exists (raw two_tweets), (join blank_line [lit "hello"; lit "bye"]).
  split_and!; [by vm_compute|done|done|by vm_compute|done].
Qed.

Lemma two_tweets_distinct : NoDup (item_key <$> raw two_tweets).
Proof.
  assert (item_key <$> raw two_tweets = [Some (KInt 1); Some (KInt 2)]) as ->
    by by vm_compute.
  apply NoDup_cons. split; [|apply NoDup_singleton].
  by intros [=]%list_elem_of_singleton.
Qed.

Lemma two_tweets_short_run :
  (main (answering nihao) two_tweets).2
  = Ok {| raw := raw two_tweets;
          analyzed := [with_translation nihao (record_of 1); record_of 2] |}.
Proof. vm_compute. exact eq_refl. Qed.

Lemma two_tweets_full_run :
  (main (answering (nihao ++ blank_line ++ zaijian)) two_tweets).2
  = Ok {| raw := raw two_tweets;
          analyzed := [with_translation nihao (record_of 1);
                       with_translation zaijian (record_of 2)] |}.
Proof. vm_compute. exact eq_refl. Qed.

Lemma C3_short_response_witness :
  responds (answering nihao) two_tweets (raw two_tweets) nihao
  ∧ length (split blank_line nihao) < length (raw two_tweets)
  ∧ ∃ items',
      update_loop 0 (raw two_tweets) (split blank_line nihao) (analyzed two_tweets)
        = Ok items'
      ∧ (main (answering nihao) two_tweets).2
        = Ok {| raw := raw two_tweets; analyzed := items' |}
      ∧ items' !! 0 = Some (with_translation nihao (record_of 1))
      ∧ items' !! 1 = Some (record_of 2).
Proof.
  assert (length (split blank_line nihao) < length (raw two_tweets)) as Hshort
    by (vm_compute; lia).
  split_and!; [apply two_tweets_respond|exact Hshort|].
  destruct (C3_short_response (answering nihao) two_tweets (raw two_tweets) nihao
              (two_tweets_respond nihao) two_tweets_distinct Hshort)
    as (items' & Hloop & Hdone & _ & Hfirst & Hrest & _).
  exists items'. split_and!; [exact Hloop| | |].
  - destruct (Hdone _ two_tweets_short_run) as [<- _]. exact two_tweets_short_run.
  - destruct (Hfirst 0 (tweet_of 1 "en" "hello") nihao 0 (record_of 1))
      as (u & Hu & Hitem); [done|done|by vm_compute|].
    vm_compute in Hu. by injection Hu as <-.
  - apply (Hrest 1 (tweet_of 2 "en" "bye") 1 (record_of 2)); [vm_compute; lia|done|by vm_compute].
Defined.

Lemma twin_tweets_respond (content : pystr) :
  responds (answering content) twin_tweets (raw twin_tweets) content.
Proof.
  split; [by split_and!|].
  exists (raw twin_tweets), (join blank_line [lit "hello"; lit "bye"]).
  split_and!; [by vm_compute|done|done|by vm_compute|done].
Qed.

(** C3 as stated fails: of two tweets that carry the same identifier the
    second is beyond the only segment of the response, and yet its
    analysis record, which is also that of the first, has received the
    translation. *)
Lemma C3_duplicate_ids_counterexample : ¬ short_response_claim.
Proof.
  intros Hclaim.
  destruct (Hclaim (answering nihao) twin_tweets (raw twin_tweets) nihao
              (twin_tweets_respond nihao) ltac:(vm_compute; lia))
    as (items' & Hloop & _ & Hrest).
  specialize (Hrest 1 (tweet_of 1 "en" "bye") 0 (record_of 1)
                ltac:(vm_compute; lia) eq_refl ltac:(by vm_compute)).
  vm_compute in Hloop. injection Hloop as <-.
  apply (inj Some) in Hrest.
  apply (f_equal (λ r : obj, r !! k_translation)) in Hrest.
  vm_compute in Hrest. discriminate Hrest.
Qed.

(** C5 (amended): when the response has exactly one segment per tweet
    of the batch and the identifiers of the batch are distinct, the
    update loop raises nothing; the scanned record of each tweet of the
    batch gets the cleaned segment of the same position as its
    translation, whether that text is empty or not, and keeps every
    other field; every record that is not the scanned record of a tweet
    of the batch is as before; and a run that comes to its end has
    written that collection, ends with it and leaves the tweets as they
    were. *)
Theorem C5_full_response (e : env) (mem : memory) (batch : list obj) (content : pystr) :
  responds e mem batch content →
  NoDup (item_key <$> batch) →
  length (split blank_line content) = length batch →
  let translations := split blank_line content in
  let items := analyzed mem in
  ∃ items',
    update_loop 0 batch translations items = Ok items'
    ∧ (∀ mem', (main e mem).2 = Ok mem' →
               raw mem' = raw mem ∧ analyzed mem' = items'
               ∧ Dump items' ∈ (main e mem).1)
    ∧ length items' = length items
    ∧ (∀ i tweet j record,
         batch !! i = Some tweet →
         scanned_record items tweet = Some (j, record) →
         ∃ segment u, translations !! i = Some segment ∧ clean segment = Ok u
           ∧ items' !! j = Some (with_translation u record)
           ∧ with_translation u record !! k_translation = Some (VStr u)
           ∧ ∀ field, field ≠ k_translation →
                      with_translation u record !! field = record !! field)
    ∧ (∀ j, (∀ tweet, tweet ∈ batch → fst <$> scanned_record items tweet ≠ Some j) →
            items' !! j = items !! j).
Proof.
  intros Hr Hnd Hfull translations items.
  destruct (main_responds _ _ _ _ Hr) as (Hitems & Hbatch & Hloop & _).
  destruct (loop_positions items batch translations Hitems Hbatch Hnd)
    as (Hlen & Hhit & Hframe).
  exists (foldl step items (zip batch translations)).
  split_and!; [exact Hloop| |done| |].
  - intros mem' Hdone.
    destruct (main_responds_done _ _ _ _ _ Hr Hdone) as (-> & _ & Hdump & _).
    by split_and!.
  - intros i tweet j record Hi Hs.
    destruct (lookup_lt_is_Some_2 translations i) as [segment Hseg].
    { unfold translations. rewrite Hfull. by eapply lookup_lt_Some. }
    exists segment, (clean_text segment).
    split_and!; [done|apply clean_text_ok|by eapply Hhit|apply lookup_insert_eq|].
    intros field Hfield. by apply lookup_insert_ne.
  - intros j Hj. apply Hframe. intros i tweet _ Hi. apply Hj.
    by eapply list_elem_of_lookup_2.
Qed.

Lemma C5_full_response_witness :
  responds (answering (nihao ++ blank_line ++ zaijian)) two_tweets (raw two_tweets)
           (nihao ++ blank_line ++ zaijian)
  ∧ length (split blank_line (nihao ++ blank_line ++ zaijian)) = length (raw two_tweets)
  ∧ ∃ items',
      update_loop 0 (raw two_tweets) (split blank_line (nihao ++ blank_line ++ zaijian))
        (analyzed two_tweets) = Ok items'
      ∧ (main (answering (nihao ++ blank_line ++ zaijian)) two_tweets).2
        = Ok {| raw := raw two_tweets; analyzed := items' |}
      ∧ items' !! 1 = Some (with_translation zaijian (record_of 2)).
Proof.
  set (content := nihao ++ blank_line ++ zaijian).
  assert (length (split blank_line content) = length (raw two_tweets)) as Hfull
    by by vm_compute.
  split_and!; [apply two_tweets_respond|exact Hfull|].
  destruct (C5_full_response (answering content) two_tweets (raw two_tweets) content
              (two_tweets_respond content) two_tweets_distinct Hfull)
    as (items' & Hloop & Hdone & _ & Hhit & _).
  exists items'. split_and!; [exact Hloop| |].
  - destruct (Hdone _ two_tweets_full_run) as (_ & Hitems & _). simpl in Hitems.
    rewrite <-Hitems. exact two_tweets_full_run.
  - destruct (Hhit 1 (tweet_of 2 "en" "bye") 1 (record_of 2))
      as (segment & u & Hseg & Hu & Hitem & _); [done|by vm_compute|].
    vm_compute in Hseg. injection Hseg as <-.
    vm_compute in Hu. by injection Hu as <-.
Defined.

(** C5 as stated fails: a response whose last segment is empty has one
    segment per tweet, and the last record receives the empty string. *)
Lemma C5_empty_translation_counterexample : ¬ nonempty_translations_claim.
Proof.
  intros Hclaim.
  destruct (Hclaim (answering (nihao ++ blank_line)) two_tweets (raw two_tweets)
              (nihao ++ blank_line)
              [with_translation nihao (record_of 1); with_translation [] (record_of 2)]
              (two_tweets_respond _) ltac:(by vm_compute) ltac:(by vm_compute)
              1 (tweet_of 2 "en" "bye") 1 (record_of 2) eq_refl ltac:(by vm_compute))
    as (u & Hu & Hitem).
  apply Hu. apply (inj Some) in Hitem.
  apply (f_equal (λ r : obj, r !! k_translation)) in Hitem.
  unfold with_translation in Hitem. rewrite !lookup_insert_eq in Hitem. congruence.
Qed.

(** C7: in a run that computed its worklist, the scan for a tweet of the
    worklist whose identifier no analysis record carries ends without an
    exception and returns the collection as it was: nothing is added and
    nothing is modified. *)
Theorem C7_unmatched_dropped (tweets items wl : list obj) (tweet : obj) (u : pystr) :
  worklist tweets items = Ok wl →
  tweet ∈ wl →
  (∀ record, record ∈ items → same_id record tweet = false) →
  set_translation tweet u items = Ok items.
Proof.
  intros (-> & Hwl & Hitems)%worklist_spec Hin Hnone.
  rewrite set_translation_spec.
  - unfold set_first. destruct (scanned_record items tweet) as [[j r]|] eqn:Hs; [|done].
    apply list_find_Some in Hs as (Hj & Hsame & _).
    rewrite (Hnone r) in Hsame; [done|]. by eapply list_elem_of_lookup_2.
  - eapply Forall_impl; [exact Hitems|apply keyed_has_id].
  - intros _. apply keyed_has_id. by eapply (proj1 (Forall_forall _ _) Hwl).
Qed.

Lemma C7_unmatched_dropped_witness :
  set_translation (tweet_of 1 "en" "hello") nihao [record_of 2] = Ok [record_of 2].
Proof.
  apply (C7_unmatched_dropped [tweet_of 1 "en" "hello"] [record_of 2]
           [tweet_of 1 "en" "hello"]).
  - by vm_compute.
  - by left.
  - intros record ->%list_elem_of_singleton. by vm_compute.
Defined.

(** C8: the number the script prints at the end is the size of the
    batch, whatever the response was; with two tweets sent and one
    segment answered it prints 2 while one record received a translation. *)
Theorem C8_reported_count_is_batch_size :
  (∀ e mem n, Print (Translated n) ∈ (main e mem).1 →
     n = length (take 20 (filter (λ tweet, eligible (analyzed mem) tweet) (raw mem))))
  ∧ (let run := main (answering nihao) two_tweets in
     let items' := [with_translation nihao (record_of 1); record_of 2] in
     run.2 = Ok {| raw := raw two_tweets; analyzed := items' |}
     ∧ Print (Translated 2) ∈ run.1
     ∧ newly_translated (analyzed two_tweets) items' = 1)
  ∧ ¬ reported_count_claim.
Proof.
  split_and!.
  - intros e mem n. rewrite main_cases.
    case_bool_decide; [by intros [=]%list_elem_of_singleton|].
    destruct (openai_installed e); simpl; [|by intros [=]%list_elem_of_singleton].
    destruct (worklist _ _) as [wl|] eqn:Hwl; [|by intros ?%not_elem_of_nil].
    apply worklist_spec in Hwl as [<- _].
    destruct wl as [|tweet wl]; [set_solver|].
    destruct (_ ≫= join_texts) as [payload|]; [|set_solver].
    destruct (service e payload) as [content|]; [|set_solver].
    destruct (update_loop _ _ _ _) as [items'|]; [destruct (dumpable items')|];
      set_solver.
  - split_and!; [by vm_compute| |by vm_compute].
    assert ((main (answering nihao) two_tweets).1 !! 4 = Some (Print (Translated 2))) as Hp
      by by vm_compute.
    by eapply list_elem_of_lookup_2.
  - intros Hclaim.
    specialize (Hclaim (answering nihao) two_tweets
      {| raw := raw two_tweets;
         analyzed := [with_translation nihao (record_of 1); record_of 2] |} 2).
    assert (2 = 1) as Hn; [|lia].
    rewrite Hclaim at 1; [by vm_compute|by vm_compute|].
    assert ((main (answering nihao) two_tweets).1 !! 4 = Some (Print (Translated 2))) as Hp
      by by vm_compute.
    by eapply list_elem_of_lookup_2.
Qed.

Lemma consulted_in_map (items : list obj) (m : gmap key obj) (tweet : obj) (k : key) :
  build_map items ∅ = Ok m → item_key tweet = Some k →
  m !! k = consulted_record items tweet.
Proof.
  intros [Hitems Hm]%build_map_spec Hk.
  rewrite Hm, lookup_empty, (consulted_by_key _ _ _ Hitems Hk). by destruct (last _).
Qed.

(** C10: the [dict] of line 24 holds, under a tweet's identifier, the
    last record in stored order with that identifier, and that record
    decides whether the tweet enters the worklist; the scan of lines
    66-69 changes the first record with that identifier and no other;
    with two records under one identifier the two are different records. *)
Theorem C10_duplicate_identifiers :
  (∀ items m tweet k,
     build_map items ∅ = Ok m → item_key tweet = Some k →
     m !! k = last (filter (λ item, same_id item tweet) items))
  ∧ (∀ tweets items wl tweet,
       worklist tweets items = Ok wl → tweet ∈ tweets → is_english tweet →
       (tweet ∈ wl ↔ match last (filter (λ item, same_id item tweet) items) with
                     | None => True
                     | Some record => untranslated record
                     end))
  ∧ (∀ tweet u items,
       Forall has_id items → has_id tweet →
       set_translation tweet u items
       = Ok match list_find (λ item, same_id item tweet) items with
            | Some (j, record) => <[j := with_translation u record]> items
            | None => items
            end)
  ∧ (let old := with_translation nihao (record_of 1) in
     let items := [old; record_of 1] in
     let tweet := tweet_of 1 "en" "hello" in
     consulted_record items tweet = Some (record_of 1)
     ∧ scanned_record items tweet = Some (0, old)
     ∧ worklist [tweet] items = Ok [tweet]
     ∧ set_translation tweet zaijian items
       = Ok [with_translation zaijian (record_of 1); record_of 1]).
Proof.
  split_and!.
  - apply consulted_in_map.
  - intros tweets items wl tweet (-> & _)%worklist_spec Hin Hen.
    rewrite list_elem_of_filter. unfold eligible. fold (consulted_record items tweet).
    destruct (is_english tweet); [|done]. simpl.
    destruct (consulted_record items tweet); naive_solver.
  - intros tweet u items Hitems Ht. by apply set_translation_spec.
  - vm_compute. repeat split; reflexivity.
Qed.

Lemma main_no_work (e : env) (mem : memory) :
  configured e → worklist (raw mem) (analyzed mem) = Ok [] →
  main e mem = ([Print (Found 0); Print NoWork], Ok mem).
Proof.
  intros (Hk1 & Hk2 & Hlib) Hwl.
  rewrite main_cases, bool_decide_eq_false_2 by tauto. by rewrite Hlib, Hwl.
Qed.

Lemma find_work_scannable (m : gmap key obj) (tweets wl : list obj) :
  find_work m tweets = Ok wl → scannable tweets.
Proof.
  revert wl. induction tweets as [|tweet tweets IH]; intros wl; simpl; [constructor|].
  unfold getitem, hash. destruct (tweet !! k_lang) as [lang|] eqn:Hlang; simpl; [|done].
  rewrite (is_english_spec _ _ Hlang).
  destruct (is_english tweet) eqn:Hen; simpl.
  { destruct (tweet !! k_id) as [v|] eqn:Hv; simpl; [|done].
    destruct (py_key v) as [k|] eqn:Hk; simpl; [|done].
    assert (keyed tweet) by (exists k; unfold item_key; by rewrite Hv).
    destruct (needs_translation _).
    - destruct (find_work m tweets) as [more|]; simpl; [|done].
      intros _. constructor; [by split|by eapply IH].
    - intros ?%IH. by constructor. }
  intros ?%IH. constructor; [|done]. split; [done|]. by rewrite Hen.
Qed.

Lemma worklist_scannable (tweets items wl : list obj) :
  worklist tweets items = Ok wl → scannable tweets.
Proof.
  unfold worklist. destruct (build_map items ∅); simpl; [|done].
  apply find_work_scannable.
Qed.

Lemma item_keys_ids (items : list obj) :
  item_key <$> items = (λ oid, oid ≫= py_key) <$> ids items.
Proof. unfold ids. by rewrite <-list_fmap_compose. Qed.

Lemma keyed_ids (items items' : list obj) :
  ids items = ids items' → Forall keyed items → Forall keyed items'.
Proof.
  intros Hids. unfold keyed.
  rewrite <-(Forall_fmap item_key is_Some items), <-(Forall_fmap item_key is_Some items').
  by rewrite !item_keys_ids, Hids.
Qed.

Lemma filter_none {A} (P : A → Prop) `{!∀ x, Decision (P x)} (l : list A) :
  Forall (λ x, ¬ P x) l → filter P l = [].
Proof.
  induction 1 as [|x l Hx _ IH]; [done|]. by rewrite filter_cons, decide_False, IH.
Qed.

Lemma consulted_scanned (items : list obj) (tweet : obj) :
  Forall keyed items → NoDup (item_key <$> items) → keyed tweet →
  consulted_record items tweet = snd <$> scanned_record items tweet.
Proof.
  intros Hitems Hnd [k Hk]. unfold consulted_record.
  induction Hitems as [|x l [kx Hx] Hl IH]; [done|].
  rewrite fmap_cons in Hnd. apply NoDup_cons in Hnd as [Hnotin Hnd].
  rewrite filter_cons_bool, scanned_cons.
  destruct (same_id x tweet) eqn:Hsame.
  - rewrite filter_none; [done|].
    apply Forall_forall. intros y Hy Hsy.
    destruct (proj1 (Forall_forall _ _) Hl y Hy) as [ky Hky].
    rewrite (same_id_keys _ _ _ _ Hx Hk) in Hsame.
    rewrite (same_id_keys _ _ _ _ Hky Hk) in Hsy.
    apply bool_decide_eq_true in Hsame. apply bool_decide_unpack in Hsy. subst.
    apply Hnotin. rewrite Hx, <-Hky. by apply list_elem_of_fmap_2.
  - rewrite (IH Hnd). by destruct (scanned_record l tweet) as [[]|].
Qed.

Lemma foldl_step_cases (pairs : list (obj * pystr)) (items : list obj) (j : nat) (r' : obj) :
  foldl step items pairs !! j = Some r' →
  items !! j = Some r'
  ∨ ∃ p r0, p ∈ pairs ∧ r' = with_translation (clean_text p.2) r0.
Proof.
  revert items. induction pairs as [|p pairs IH]; intros items; simpl; [by left|].
  intros [Hj|(q & r0 & Hq & ->)]%IH.
  - unfold step, set_first in Hj.
    destruct (scanned_record items p.1) as [[j' r0]|]; [|by left].
    apply list_lookup_insert_Some in Hj as [(-> & <- & _)|[_ Hj]]; [|by left].
    right. exists p, r0. split; [by left|done].
  - right. exists q, r0. split; [by right|done].
Qed.

Lemma translated_not_untranslated (u : pystr) (record : obj) :
  u ≠ [] → untranslated (with_translation u record) = false.
Proof.
  intros Hu. unfold untranslated, with_translation. rewrite lookup_insert_eq.
  by destruct u.
Qed.

Lemma scanned_after (pairs : list (obj * pystr)) (items : list obj) (tweet : obj)
    (j : nat) (record : obj) :
  scanned_record items tweet = Some (j, record) →
  ∃ record', scanned_record (foldl step items pairs) tweet = Some (j, record')
             ∧ foldl step items pairs !! j = Some record'.
Proof.
  intros Hs. pose proof (scanned_ids (foldl step items pairs) items tweet
                           (foldl_step_ids _ _)) as Hfst.
  rewrite Hs in Hfst.
  destruct (scanned_record (foldl step items pairs) tweet) as [[j' r']|] eqn:Hs'; [|done].
  injection Hfst as ->. exists r'. split; [done|].
  by apply list_find_Some in Hs' as (? & _).
Qed.

Lemma second_worklist_empty (tweets items wl : list obj) (translations : list pystr) :
  worklist tweets items = Ok wl →
  NoDup (item_key <$> wl) →
  NoDup (item_key <$> items) →
  (∀ tweet, tweet ∈ wl → is_Some (scanned_record items tweet)) →
  (∀ i segment, i < length wl → translations !! i = Some segment →
                clean_text segment ≠ []) →
  length wl ≤ length translations →
  worklist tweets (foldl step items (zip wl translations)) = Ok [].
Proof.
  intros Hwl Hndw Hndi Hrec Hseg Hlen.
  pose proof (worklist_scannable _ _ _ Hwl) as Hscan.
  pose proof (worklist_spec _ _ _ Hwl) as (Heq & Hkwl & Hkitems).
  set (pairs := zip wl translations). set (items' := foldl step items pairs).
  assert (ids items' = ids items) as Hids by apply foldl_step_ids.
  assert (Forall keyed items') as Hkitems' by by eapply keyed_ids.
  assert (NoDup (item_key <$> items')) as Hndi' by by rewrite item_keys_ids, Hids, <-item_keys_ids.
  assert (∀ p, p ∈ pairs → clean_text p.2 ≠ []) as Hpairs.
  { intros [tweet segment] [i Hi]%list_elem_of_lookup.
    apply lookup_zip_with_Some in Hi as (? & ? & [= <- <-] & Hi & Hs).
    eapply Hseg; [|exact Hs]. by eapply lookup_lt_Some. }
  destruct (worklist_total tweets items' Hkitems' Hscan) as [wl' Hwl'].
  rewrite Hwl'. f_equal. apply worklist_spec in Hwl' as (-> & _).
  apply filter_none, Forall_forall. intros tweet Hin Hel'.
  apply Is_true_true in Hel'. unfold eligible in Hel'.
  apply andb_true_iff in Hel' as [Hen Hcons'].
  assert (keyed tweet) as Hkt.
  { apply (proj1 (Forall_forall _ _) Hscan tweet Hin). by rewrite Hen. }
  rewrite (consulted_scanned _ _ Hkitems' Hndi' Hkt) in Hcons'.
  destruct (scanned_record items tweet) as [[j record]|] eqn:Hs.
  - destruct (scanned_after pairs _ _ _ _ Hs) as (record' & Hs' & Hj').
    fold items' in Hs', Hj'. rewrite Hs' in Hcons'. simpl in Hcons'.
    destruct (eligible items tweet) eqn:Hel.
    + assert (tweet ∈ wl) as Hinwl.
      { rewrite Heq. apply list_elem_of_filter. split; [by rewrite Hel|done]. }
      apply list_elem_of_lookup in Hinwl as [i Hi].
      destruct (lookup_lt_is_Some_2 translations i) as [segment Hsegi].
      { apply lookup_lt_Some in Hi. lia. }
      destruct (loop_positions items wl translations Hkitems Hkwl Hndw)
        as (_ & Hhit & _).
      specialize (Hhit i tweet segment j record Hi Hsegi Hs).
      fold pairs items' in Hhit. rewrite Hj' in Hhit. injection Hhit as ->.
      rewrite translated_not_untranslated in Hcons'; [done|].
      eapply Hseg; [|exact Hsegi]. by eapply lookup_lt_Some.
    + unfold eligible in Hel. rewrite Hen in Hel. simpl in Hel.
      rewrite (consulted_scanned _ _ Hkitems Hndi Hkt), Hs in Hel. simpl in Hel.
      destruct (foldl_step_cases pairs items j record' Hj')
        as [Hj|(p & r0 & Hp & ->)].
      * apply list_find_Some in Hs as (Hj0 & _). congruence.
      * rewrite translated_not_untranslated in Hcons'; [done|by apply Hpairs].
  - pose proof (scanned_ids items' items tweet Hids) as Hfst. rewrite Hs in Hfst.
    destruct (eligible items tweet) eqn:Hel.
    + assert (tweet ∈ wl) as Hinwl.
      { rewrite Heq. apply list_elem_of_filter. split; [by rewrite Hel|done]. }
      destruct (Hrec tweet Hinwl) as [? Hsome]. congruence.
    + unfold eligible in Hel. rewrite Hen in Hel. simpl in Hel.
      by rewrite (consulted_scanned _ _ Hkitems Hndi Hkt), Hs in Hel.
Qed.

(** C6 (amended): with an empty worklist the script prints that it
    found nothing, sends no request, does not open the file for writing
    and ends without an exception.  Hence a second run over the file
    that a first run left is idle in two cases: when the first run found
    no work; and when the first run came to its end and gave every
    eligible tweet a translation that is not empty (at most 20 eligible
    tweets, their identifiers distinct, each with an analysis record,
    record identifiers distinct, at least one segment per tweet, no
    segment empty after cleaning). *)
Theorem C6_no_work_and_second_run :
  (∀ e mem,
     configured e → worklist (raw mem) (analyzed mem) = Ok [] →
     main e mem = ([Print (Found 0); Print NoWork], Ok mem))
  ∧ (∀ e tweets items,
       configured e → worklist tweets items = Ok [] →
       let first := main e {| raw := tweets; analyzed := items |} in
       ∃ items1,
         persisted items first.1 = Some items1
         ∧ main e {| raw := tweets; analyzed := items1 |}
           = ([Print (Found 0); Print NoWork], Ok {| raw := tweets; analyzed := items1 |}))
  ∧ (∀ e tweets items batch content mem1,
       responds e {| raw := tweets; analyzed := items |} batch content →
       let translations := split blank_line content in
       length (filter (λ tweet, eligible items tweet) tweets) ≤ 20 →
       NoDup (item_key <$> batch) →
       NoDup (item_key <$> items) →
       (∀ tweet, tweet ∈ batch → is_Some (scanned_record items tweet)) →
       length batch ≤ length translations →
       (∀ i segment u, i < length batch → translations !! i = Some segment →
                       clean segment = Ok u → u ≠ []) →
       let first := main e {| raw := tweets; analyzed := items |} in
       first.2 = Ok mem1 →
       ∃ items1,
         persisted items first.1 = Some items1
         ∧ mem1 = {| raw := tweets; analyzed := items1 |}
         ∧ main e {| raw := tweets; analyzed := items1 |}
           = ([Print (Found 0); Print NoWork], Ok {| raw := tweets; analyzed := items1 |})).
Proof.
  split_and!.
  - apply main_no_work.
  - intros e tweets items He Hwl first. exists items.
    unfold first.
    rewrite (main_no_work e {| raw := tweets; analyzed := items |} He Hwl). simpl.
    by split.
  - intros e tweets items batch content mem1 Hr translations Hfew Hndb Hndi Hrec Hlen Hseg
      first Hdone.
    destruct (main_responds_done _ _ _ _ _ Hr Hdone) as (Hmem & _ & _ & Hfile).
    simpl in Hmem, Hfile.
    assert (configured e) as He by apply Hr.
    destruct Hr as (_ & wl & payload' & Hwl & _ & Hbatch & _). simpl in *.
    pose proof (worklist_spec _ _ _ Hwl) as (Heq & _). rewrite <-Heq in Hfew.
    rewrite take_ge in Hbatch by done. subst batch.
    exists (foldl step items (zip wl translations)).
    split_and!; [exact Hfile|exact Hmem|].
    apply main_no_work; [done|]. simpl.
    apply second_worklist_empty; try done.
    intros i segment Hi Hs. eapply Hseg; [exact Hi|exact Hs|apply clean_text_ok].
Qed.

Lemma two_tweets_records_distinct : NoDup (item_key <$> analyzed two_tweets).
Proof.
  assert (item_key <$> analyzed two_tweets = [Some (KInt 1); Some (KInt 2)]) as ->
    by by vm_compute.
  apply NoDup_cons. split; [|apply NoDup_singleton].
  by intros [=]%list_elem_of_singleton.
Qed.

Lemma C6_no_work_and_second_run_witness :
  let e := answering (nihao ++ blank_line ++ zaijian) in
  let first := main e two_tweets in
  ∃ items1,
    persisted (analyzed two_tweets) first.1 = Some items1
    ∧ first.2 = Ok {| raw := raw two_tweets; analyzed := items1 |}
    ∧ main e {| raw := raw two_tweets; analyzed := items1 |}
      = ([Print (Found 0); Print NoWork],
         Ok {| raw := raw two_tweets; analyzed := items1 |}).
Proof.
  intros e first.
  destruct C6_no_work_and_second_run as (_ & _ & Hsecond).
  assert (∀ tweet, tweet ∈ raw two_tweets →
                   is_Some (scanned_record (analyzed two_tweets) tweet)) as Hrec.
  { intros tweet [->|[->|[]%not_elem_of_nil]%elem_of_cons]%elem_of_cons;
      apply (bool_decide_unpack _); by vm_compute. }
  assert (∀ i segment u, i < length (raw two_tweets) →
            split blank_line (nihao ++ blank_line ++ zaijian) !! i = Some segment →
            clean segment = Ok u → u ≠ []) as Hseg.
  { intros [|[|i]] segment u Hi Hs Hu; [| |simpl in Hi; lia];
      vm_compute in Hs; injection Hs as <-; vm_compute in Hu; by injection Hu as <-. }
  destruct (Hsecond e (raw two_tweets) (analyzed two_tweets) (raw two_tweets)
              (nihao ++ blank_line ++ zaijian)
              {| raw := raw two_tweets;
                 analyzed := [with_translation nihao (record_of 1);
                              with_translation zaijian (record_of 2)] |}
              (two_tweets_respond _)
              ltac:(vm_compute; lia) two_tweets_distinct two_tweets_records_distinct
              Hrec ltac:(vm_compute; lia) Hseg two_tweets_full_run)
    as (items1 & Hfile & Hmem & Hidle).
  exists items1. split_and!; [exact Hfile| |exact Hidle].
  injection Hmem as <-. exact two_tweets_full_run.
Defined.

(** C6 as stated fails: an English tweet without an analysis record is
    eligible in every run, so the second run sends a request and writes
    the file again. *)
Lemma C6_second_run_counterexample : ¬ second_run_idle_claim.
Proof.
  intros Hclaim.
  destruct (Hclaim (answering nihao) [tweet_of 1 "en" "hello"] []
              {| raw := [tweet_of 1 "en" "hello"]; analyzed := [] |} []
              ltac:(by vm_compute) ltac:(by vm_compute)) as (_ & Hdump & _).
  apply (Hdump []).
  eapply (list_elem_of_lookup_2 _ 3). by vm_compute.
Qed.

End PatcherFacts.

Section LogoFacts.
Import Logo LogoSpec.
Context {bitmap : Type}.
Variable convert_pixels : mode → mode → bitmap → bitmap.
Variable resample_pixels : resampling → mode → Z * Z → bitmap → Z * Z → bitmap.

#[local] Abbreviation world := (@world bitmap).
#[local] Abbreviation image := (@image bitmap).
#[local] Abbreviation resized := (Logo.resized resample_pixels).

Lemma bind_ok {A B} (c : io A) (f : A → io B) (w w' : world) (a : A) :
  c w = (Ok a, w') → mbind (MBind := io_bind) f c w = f a w'.
Proof. intros Hc. unfold mbind, io_bind. by rewrite Hc. Qed.

Lemma bind_raise {A B} (c : io A) (f : A → io B) (w w' : world) (x : exn) :
  c w = (Raise x, w') → mbind (MBind := io_bind) f c w = (Raise x, w').
Proof. intros Hc. unfold mbind, io_bind. by rewrite Hc. Qed.

Lemma extends_lookup (w w' : world) (l l' : loc) (im im' : image) :
  extends w l im w' → heap w !! l' = Some im' → heap w' !! l' = Some im'.
Proof.
  intros (Hfresh & -> & _) Hl'. rewrite lookup_insert_ne; [done|]. congruence.
Qed.

Lemma extends_new (w w' : world) (l : loc) (im : image) :
  extends w l im w' → heap w' !! l = Some im.
Proof. intros (_ & -> & _). apply lookup_insert_eq. Qed.

Lemma alloc_spec (im : image) (w : world) :
  ∃ l w', alloc im w = (Ok l, w') ∧ extends w l im w'.
Proof.
  eexists _, _. split; [done|]. split_and!; try done.
  apply not_elem_of_dom, is_fresh.
Qed.

Lemma resize_square_spec (img : loc) (im : image) (size : Z) (w : world) :
  heap w !! img = Some im → (0 < size)%Z → (size < 2147483648)%Z →
  ∃ l w', resize_square resample_pixels img size w = (Ok l, w')
          ∧ extends w l (resized im size) w'.
Proof.
  intros Him Hsize Hint. unfold resize_square, image_resize.
  destruct (alloc_spec (resized im size) w) as (l & w' & Ha & He).
  exists l, w'. split; [|done].
  erewrite bind_ok; [|unfold deref; by rewrite Him].
  rewrite bool_decide_eq_true_2 by (unfold fits_c_int; simpl; lia).
  rewrite bool_decide_eq_true_2 by done. exact Ha.
Qed.

Lemma resize_square_returns (img : loc) (im : image) (size : Z) (w w' : world)
    (out : loc) :
  heap w !! img = Some im →
  resize_square resample_pixels img size w = (Ok out, w') →
  (0 < size < 2147483648)%Z.
Proof.
  intros Him. unfold resize_square, image_resize.
  erewrite bind_ok; [|unfold deref; by rewrite Him].
  case_bool_decide as Hint; [|by intros [=]].
  case_bool_decide as Hpos; [|by intros [=]].
  unfold fits_c_int in Hint. simpl in *. lia.
Qed.

Lemma convert_spec (l : loc) (im : image) (m : mode) (w : world) :
  heap w !! l = Some im →
  ∃ l' w', image_convert convert_pixels l m w = (Ok l', w')
    ∧ extends w l' {| mode_of := m; size_of := size_of im;
                      pixels := convert_pixels (mode_of im) m (pixels im) |} w'.
Proof.
  intros Him. unfold image_convert.
  destruct (alloc_spec {| mode_of := m; size_of := size_of im;
                          pixels := convert_pixels (mode_of im) m (pixels im) |} w)
    as (l' & w' & Ha & He).
  exists l', w'. split; [|done].
  erewrite bind_ok; [|unfold deref; by rewrite Him]. exact Ha.
Qed.

Lemma open_spec (p : path) (f : format) (im : image) (w : world) :
  fs w !! p = Some (File (Encoded f im)) →
  (pixel_count im ≤ 2 * max_image_pixels)%Z →
  ∃ l w', image_open p w = (Ok l, w') ∧ extends w l im w'.
Proof.
  intros Hp Hfew. unfold image_open. rewrite Hp.
  rewrite bool_decide_eq_false_2 by lia. apply alloc_spec.
Qed.

Lemma open_too_large (p : path) (f : format) (im : image) (w : world) :
  fs w !! p = Some (File (Encoded f im)) →
  (2 * max_image_pixels < pixel_count im)%Z →
  image_open p w = (Raise DecompressionBombError, w).
Proof.
  intros Hp Hmany. unfold image_open. rewrite Hp.
  by rewrite bool_decide_eq_true_2 by done.
Qed.

Lemma save_spec (l : loc) (im : image) (p : path) (f : option format) (fmt : format)
    (w : world) :
  heap w !! l = Some im →
  match f with Some x => x | None => default ICO (last p ≫= format_of_name) end = fmt →
  (f = None → is_Some (last p ≫= format_of_name)) →
  encodable fmt (mode_of im) = true →
  is_dir w (removelast p) = true →
  is_dir w p = false →
  image_save l p f w
  = (Ok (), {| heap := heap w; fs := <[p := File (Encoded fmt im)]> (fs w);
               log := Wrote p :: log w |}).
Proof.
  intros Him Hfmt Hname Henc Hparent Hp. unfold image_save.
  erewrite bind_ok; [|unfold deref; by rewrite Him].
  erewrite (bind_ok _ _ w w fmt).
  - rewrite Henc. unfold write_file. by rewrite Hparent, Hp.
  - destruct f as [x|]; [by subst|].
    destruct Hname as [x Hx]; [done|]. rewrite Hx in Hfmt |- *. by subst.
Qed.

Lemma size_at_spec (l : loc) (im : image) (w : world) :
  heap w !! l = Some im → size_at l w = (Ok (size_of im), w).
Proof.
  intros Him. unfold size_at. erewrite bind_ok; [|unfold deref; by rewrite Him]. done.
Qed.

(** C9 (amended): a call of [resize_square] on an image object that
    returns was given a size that is positive and fits a C [int]; it has
    returned a new image object of size × size in the mode of its input
    (so with an alpha band exactly when the input has one); the input
    object and every other object are as before, and so are the files;
    and a second call with the same arguments that returns, returns
    another object with the same content. *)
Theorem C9_resize_square (w w' : world) (img out : loc) (im : image) (size : Z) :
  heap w !! img = Some im →
  resize_square resample_pixels img size w = (Ok out, w') →
  (0 < size < 2147483648)%Z
  ∧ heap w !! out = None
  ∧ (∃ im', heap w' !! out = Some im'
            ∧ size_of im' = (size, size)
            ∧ mode_of im' = mode_of im
            ∧ has_alpha (mode_of im') = has_alpha (mode_of im))
  ∧ heap w' !! img = Some im
  ∧ (∀ l, l ≠ out → heap w' !! l = heap w !! l)
  ∧ fs w' = fs w
  ∧ ∀ again w'',
      resize_square resample_pixels img size w' = (Ok again, w'') →
      again ≠ out ∧ heap w'' !! again = heap w'' !! out.
Proof.
  intros Him Hcall.
  pose proof (resize_square_returns _ _ _ _ _ _ Him Hcall) as [Hsize Hint].
  destruct (resize_square_spec img im size w Him Hsize Hint) as (out0 & w0 & Hrun & He).
  rewrite Hcall in Hrun. injection Hrun as <- <-.
  pose proof (extends_lookup _ _ _ _ _ _ He Him) as Him'.
  split_and!; try done.
  - apply He.
  - exists (resized im size). split_and!; [by eapply extends_new|done..].
  - intros l Hl. destruct He as (_ & -> & _). by apply lookup_insert_ne.
  - apply He.
  - intros again w'' Hcall'.
    destruct (resize_square_spec img im size w' Him' Hsize Hint)
      as (again0 & w0 & Hrun' & He').
    rewrite Hcall' in Hrun'. injection Hrun' as <- <-. split.
    + intros ->. destruct He' as (Hfresh & _).
      by rewrite (extends_new _ _ _ _ He) in Hfresh.
    + rewrite (extends_new _ _ _ _ He').
      symmetry. eapply extends_lookup; [exact He'|]. by eapply extends_new.
Qed.

Lemma mkdir_spec (w : world) :
  fs w !! public = None ∨ fs w !! public = Some Dir →
  ∃ w', mkdir_exist_ok public w = (Ok (), w')
    ∧ heap w' = heap w ∧ log w' = log w
    ∧ fs w' !! public = Some Dir
    ∧ ∀ p, p ≠ public → fs w' !! p = fs w !! p.
Proof.
  unfold mkdir_exist_ok. intros [Hp|Hp]; rewrite Hp.
  - eexists. split_and!; try done; simpl.
    + apply lookup_insert_eq.
    + intros p Hne. by apply lookup_insert_ne.
  - by exists w.
Qed.

Lemma fresh_lookup (h : gmap loc image) (l x : loc) (im y : image) :
  h !! l = None → h !! x = Some y → <[l := im]> h !! x = Some y.
Proof. intros Hl Hx. rewrite lookup_insert_ne; [done|]. congruence. Qed.

Lemma is_dir_true (w : world) (p : path) : fs w !! p = Some Dir → is_dir w p = true.
Proof. intros Hp. unfold is_dir. rewrite Hp. by destruct p. Qed.

Lemma is_dir_false (w : world) (p : path) :
  p ≠ [] → fs w !! p ≠ Some Dir → is_dir w p = false.
Proof.
  intros Hne Hp. unfold is_dir. destruct p; [done|].
  by destruct (fs w !! _) as [[|]|].
Qed.

Lemma save_png (l : loc) (im : image) (name : string) (f : option format) (fmt : format)
    (w : world) :
  heap w !! l = Some im →
  mode_of im = MRGBA →
  match f with Some x => Some x | None => format_of_name name end = Some fmt →
  fs w !! public = Some Dir →
  fs w !! in_public name ≠ Some Dir →
  image_save l (in_public name) f w
  = (Ok (), {| heap := heap w;
               fs := <[in_public name := File (Encoded fmt im)]> (fs w);
               log := Wrote (in_public name) :: log w |}).
Proof.
  intros Him Hmode Hfmt Hdir Hfree. apply save_spec; try done.
  - destruct f; simpl in *; [congruence|by rewrite Hfmt].
  - intros ->. simpl in *. by rewrite Hfmt.
  - rewrite Hmode. by destruct fmt.
  - by apply is_dir_true.
  - by apply is_dir_false.
Qed.

Ltac run_step H := erewrite bind_ok; [|exact H]; clear H.

Ltac alloc_world w' He :=
  let h := fresh "h" in let f := fresh "f" in let lg := fresh "lg" in
  let Hfresh := fresh "Hfresh" in
  destruct w' as [h f lg]; destruct He as (Hfresh & ? & ? & ?); simpl in *; subst h f lg.

Ltac fs_lookup Hdir Hfree :=
  simpl; rewrite ?lookup_insert_ne by done;
  first [exact Hdir | apply Hfree; unfold output_names; set_solver].

Ltac with_world tac :=
  match goal with |- _ (mbind _ _ ?W) => tac W end.

Lemma main_runs (w : world) (f : format) (src : image) :
  fs w !! ["logo.png"] = Some (File (Encoded f src)) →
  (pixel_count src ≤ 2 * max_image_pixels)%Z →
  (fs w !! public = None ∨ fs w !! public = Some Dir) →
  (∀ name, name ∈ output_names → fs w !! in_public name ≠ Some Dir) →
  let logo := {| mode_of := MRGBA; size_of := size_of src;
                 pixels := convert_pixels (mode_of src) MRGBA (pixels src) |} in
  ∃ h fs0,
    fs0 !! public = Some Dir ∧ (∀ p, p ≠ public → fs0 !! p = fs w !! p)
    ∧ main convert_pixels resample_pixels w
      = (Ok (),
         {| heap := h;
            fs := <[in_public "favicon.ico" := File (Encoded ICO (resized logo 32))]>
                 (<[in_public "apple-touch-icon.png" := File (Encoded PNG (resized logo 180))]>
                 (<[in_public "favicon-32.png" := File (Encoded PNG (resized logo 32))]>
                 (<[in_public "favicon-16.png" := File (Encoded PNG (resized logo 16))]>
                 (<[in_public "logo-80.png" := File (Encoded PNG (resized logo 80))]>
                 (<[in_public "logo-24.png" := File (Encoded PNG (resized logo 24))]> fs0)))));
            log := [Say Done; Say FaviconsGenerated;
                    Wrote (in_public "favicon.ico");
                    Wrote (in_public "apple-touch-icon.png");
                    Wrote (in_public "favicon-32.png");
                    Wrote (in_public "favicon-16.png");
                    Say (LoginLogo (80, 80)%Z);
                    Wrote (in_public "logo-80.png");
                    Say (SidebarLogo (24, 24)%Z);
                    Wrote (in_public "logo-24.png");
                    Say (SourceLogo (size_of src))] ++ log w |}).
Proof.
  intros Hsrc Hfew Hpub Hfree logo.
  match goal with
  | |- ∃ h fs0, @?A fs0 ∧ @?B fs0 ∧ _ = @?R h fs0 =>
      set (Q := λ r : result () * world, ∃ h fs0, A fs0 ∧ B fs0 ∧ r = R h fs0);
      change (Q (main convert_pixels resample_pixels w))
  end.
  unfold main.
  destruct (mkdir_spec w Hpub) as (w1 & Hrun & Hh & Hl & Hdir & Hfs). run_step Hrun.
  destruct w1 as [h1 fs1 lg1]. simpl in Hh, Hl, Hdir, Hfs. subst h1 lg1.
  assert (∀ name, name ∈ output_names → fs1 !! in_public name ≠ Some Dir) as Hfree1.
  { intros name Hname. rewrite Hfs by done. by apply Hfree. }
  assert (∀ name, in_public name ≠ public) as Hsub by done.
  (* logo = Image.open(...).convert("RGBA") *)
  destruct (open_spec ["logo.png"] f src {| heap := heap w; fs := fs1; log := log w |})
    as (opened & w2 & Hrun & He); [simpl; by rewrite Hfs|exact Hfew|].
  run_step Hrun. pose proof (extends_new _ _ _ _ He) as Hopened. alloc_world w2 He.
  with_world ltac:(fun W =>
    destruct (convert_spec opened src MRGBA W Hopened) as (logo_l & w3 & Hrun & He)).
  run_step Hrun. pose proof (extends_new _ _ _ _ He) as Hlogo. alloc_world w3 He.
  fold logo in Hlogo |- *. clear Hopened.
  erewrite bind_ok; [|apply size_at_spec; simpl; eassumption]. erewrite bind_ok; [|done].
  (* sidebar *)
  with_world ltac:(fun W =>
    destruct (resize_square_spec logo_l logo 24 W Hlogo eq_refl eq_refl) as (sidebar & w4 & Hrun & He)).
  run_step Hrun. pose proof (extends_new _ _ _ _ He) as Hsidebar.
  pose proof (extends_lookup _ _ _ _ _ _ He Hlogo) as Hlogo4. clear Hlogo.
  alloc_world w4 He.
  erewrite bind_ok; [|eapply (save_png _ _ _ None PNG); [simpl; exact Hsidebar|done|done|fs_lookup Hdir Hfree1|fs_lookup Hdir Hfree1]].
  erewrite bind_ok; [|apply size_at_spec; simpl; eassumption]. erewrite bind_ok; [|done].
  (* login *)
  with_world ltac:(fun W =>
    destruct (resize_square_spec logo_l logo 80 W Hlogo4 eq_refl eq_refl) as (login & w5 & Hrun & He)).
  run_step Hrun. pose proof (extends_new _ _ _ _ He) as Hlogin.
  pose proof (extends_lookup _ _ _ _ _ _ He Hlogo4) as Hlogo5. clear Hlogo4 Hsidebar.
  alloc_world w5 He.
  erewrite bind_ok; [|eapply (save_png _ _ _ None PNG); [simpl; exact Hlogin|done|done|fs_lookup Hdir Hfree1|fs_lookup Hdir Hfree1]].
  erewrite bind_ok; [|apply size_at_spec; simpl; eassumption]. erewrite bind_ok; [|done].
  (* favicons *)
  with_world ltac:(fun W =>
    destruct (resize_square_spec logo_l logo 16 W Hlogo5 eq_refl eq_refl) as (fav16 & w6 & Hrun & He)).
  run_step Hrun. pose proof (extends_new _ _ _ _ He) as H16.
  pose proof (extends_lookup _ _ _ _ _ _ He Hlogo5) as Hlogo6. clear Hlogo5 Hlogin.
  alloc_world w6 He.
  with_world ltac:(fun W =>
    destruct (resize_square_spec logo_l logo 32 W Hlogo6 eq_refl eq_refl) as (fav32 & w7 & Hrun & He)).
  run_step Hrun. pose proof (extends_new _ _ _ _ He) as H32.
  pose proof (extends_lookup _ _ _ _ _ _ He Hlogo6) as Hlogo7.
  pose proof (extends_lookup _ _ _ _ _ _ He H16) as H16'. clear Hlogo6 H16.
  alloc_world w7 He.
  with_world ltac:(fun W =>
    destruct (resize_square_spec logo_l logo 180 W Hlogo7 eq_refl eq_refl) as (touch & w8 & Hrun & He)).
  run_step Hrun. pose proof (extends_new _ _ _ _ He) as H180.
  pose proof (extends_lookup _ _ _ _ _ _ He H32) as H32'.
  pose proof (extends_lookup _ _ _ _ _ _ He H16') as H16''. clear Hlogo7 H16' H32.
  alloc_world w8 He.
  erewrite bind_ok; [|eapply (save_png _ _ _ None PNG); [simpl; exact H16''|done|done|fs_lookup Hdir Hfree1|fs_lookup Hdir Hfree1]].
  erewrite bind_ok; [|eapply (save_png _ _ _ None PNG); [simpl; exact H32'|done|done|fs_lookup Hdir Hfree1|fs_lookup Hdir Hfree1]].
  erewrite bind_ok; [|eapply (save_png _ _ _ None PNG); [simpl; exact H180|done|done|fs_lookup Hdir Hfree1|fs_lookup Hdir Hfree1]].
  erewrite bind_ok; [|eapply (save_png _ _ _ (Some ICO) ICO); [simpl; exact H32'|done|done|fs_lookup Hdir Hfree1|fs_lookup Hdir Hfree1]].
  erewrite bind_ok; [|done].
  unfold Q, tell. simpl. eexists _, fs1. split_and!; [done|done|reflexivity].
Qed.

Lemma main_too_large (w : world) (f : format) (src : image) :
  fs w !! ["logo.png"] = Some (File (Encoded f src)) →
  (2 * max_image_pixels < pixel_count src)%Z →
  (fs w !! public = None ∨ fs w !! public = Some Dir) →
  ∃ w', main convert_pixels resample_pixels w = (Raise DecompressionBombError, w')
        ∧ heap w' = heap w ∧ log w' = log w
        ∧ ∀ p, p ≠ public → fs w' !! p = fs w !! p.
Proof.
  intros Hsrc Hmany Hpub. unfold main.
  destruct (mkdir_spec w Hpub) as (w1 & Hrun & Hh & Hl & Hdir & Hfs).
  erewrite bind_ok; [|exact Hrun]. exists w1. split_and!; [|done..].
  apply bind_raise. eapply open_too_large; [|exact Hmany].
  rewrite Hfs by done. exact Hsrc.
Qed.

(** What a run that came to its end has done. *)
Lemma main_done (w w' : world) (f : format) (src : image) :
  fs w !! ["logo.png"] = Some (File (Encoded f src)) →
  (fs w !! public = None ∨ fs w !! public = Some Dir) →
  (∀ name, name ∈ output_names → fs w !! in_public name ≠ Some Dir) →
  main convert_pixels resample_pixels w = (Ok (), w') →
  let logo := {| mode_of := MRGBA; size_of := size_of src;
                 pixels := convert_pixels (mode_of src) MRGBA (pixels src) |} in
  (pixel_count src ≤ 2 * max_image_pixels)%Z
  ∧ ∃ h fs0,
    fs0 !! public = Some Dir ∧ (∀ p, p ≠ public → fs0 !! p = fs w !! p)
    ∧ w' =
         {| heap := h;
            fs := <[in_public "favicon.ico" := File (Encoded ICO (resized logo 32))]>
                 (<[in_public "apple-touch-icon.png" := File (Encoded PNG (resized logo 180))]>
                 (<[in_public "favicon-32.png" := File (Encoded PNG (resized logo 32))]>
                 (<[in_public "favicon-16.png" := File (Encoded PNG (resized logo 16))]>
                 (<[in_public "logo-80.png" := File (Encoded PNG (resized logo 80))]>
                 (<[in_public "logo-24.png" := File (Encoded PNG (resized logo 24))]> fs0)))));
            log := [Say Done; Say FaviconsGenerated;
                    Wrote (in_public "favicon.ico");
                    Wrote (in_public "apple-touch-icon.png");
                    Wrote (in_public "favicon-32.png");
                    Wrote (in_public "favicon-16.png");
                    Say (LoginLogo (80, 80)%Z);
                    Wrote (in_public "logo-80.png");
                    Say (SidebarLogo (24, 24)%Z);
                    Wrote (in_public "logo-24.png");
                    Say (SourceLogo (size_of src))] ++ log w |}.
Proof.
  intros Hsrc Hpub Hfree Hmain logo.
  destruct (decide (pixel_count src ≤ 2 * max_image_pixels)%Z) as [Hfew|Hmany].
  - split; [exact Hfew|].
    destruct (main_runs w f src Hsrc Hfew Hpub Hfree) as (h & fs0 & Hdir & Hfs & Hmain').
    rewrite Hmain in Hmain'. injection Hmain' as ->.
    exists h, fs0. split_and!; [exact Hdir|exact Hfs|reflexivity].
  - destruct (main_too_large w f src Hsrc ltac:(lia) Hpub) as (w0 & Hmain' & _).
    rewrite Hmain in Hmain'. discriminate Hmain'.
Qed.

(** C2 (amended): a run on a decodable logo.png that comes to its end
    (with [public] absent or a directory and none of the output names a
    directory) has written exactly six files, all in [public]: five PNG
    files holding the source resized to 24, 80, 16, 32 and 180 pixels,
    and one ICO file holding the same 32-pixel bitmap as favicon-32.png;
    the source had no more pixels than [Image.open] accepts; nothing
    else below the root changes, except that [public] exists afterwards. *)
Theorem C2_six_files (w w' : world) (f : format) (src : image) :
  fs w !! ["logo.png"] = Some (File (Encoded f src)) →
  (fs w !! public = None ∨ fs w !! public = Some Dir) →
  (∀ name, name ∈ output_names → fs w !! in_public name ≠ Some Dir) →
  main convert_pixels resample_pixels w = (Ok (), w') →
  let logo := {| mode_of := MRGBA; size_of := size_of src;
                 pixels := convert_pixels (mode_of src) MRGBA (pixels src) |} in
  let png n := Some (File (Encoded PNG (resized logo n))) in
  written w' = written w ++ (in_public <$> output_names)
  ∧ length output_names = 6
  ∧ NoDup output_names
  ∧ fs w' !! in_public "logo-24.png" = png 24%Z
  ∧ fs w' !! in_public "logo-80.png" = png 80%Z
  ∧ fs w' !! in_public "favicon-16.png" = png 16%Z
  ∧ fs w' !! in_public "favicon-32.png" = png 32%Z
  ∧ fs w' !! in_public "apple-touch-icon.png" = png 180%Z
  ∧ fs w' !! in_public "favicon.ico" = Some (File (Encoded ICO (resized logo 32)))
  ∧ (∀ n, size_of (resized logo n) = (n, n) ∧ mode_of (resized logo n) = MRGBA)
  ∧ (pixel_count src ≤ 2 * max_image_pixels)%Z
  ∧ fs w' !! public = Some Dir
  ∧ (∀ p, p ≠ public → p ∉ in_public <$> output_names → fs w' !! p = fs w !! p).
Proof.
  intros Hsrc Hpub Hfree Hmain logo png.
  destruct (main_done w w' f src Hsrc Hpub Hfree Hmain)
    as (Hfew & h & fs0 & Hdir & Hfs & ->).
  unfold png. simpl.
  split_and!; try by rewrite ?lookup_insert_ne, ?lookup_insert_eq by done.
  - unfold written. simpl. by rewrite !reverse_cons, <-!app_assoc.
  - unfold output_names. repeat (apply NoDup_cons; split; [set_solver|]). apply NoDup_nil_2.
  - intros p Hp Hnot. unfold output_names in Hnot. simpl in Hnot.
    rewrite !not_elem_of_cons in Hnot. destruct Hnot as (?&?&?&?&?&?&_).
    rewrite !lookup_insert_ne by done. by apply Hfs.
Qed.

End LogoFacts.

Section LogoExamples.
Import Logo LogoSpec.

Lemma checkout_no_dirs (p : path) : fs checkout !! p ≠ Some Dir.
Proof.
  simpl. destruct (decide (p = ["logo.png"])) as [->|Hne].
  - by rewrite lookup_singleton_eq.
  - by rewrite lookup_singleton_ne.
Qed.

Lemma checkout_run :
  ∃ w', main keep_pixels resample_unit checkout = (Ok (), w')
        ∧ written w' = in_public <$> output_names.
Proof.
  destruct (main_runs keep_pixels resample_unit checkout PNG flat)
    as (h & fs0 & _ & _ & Hmain);
    [done|vm_compute; discriminate|by left|intros; apply checkout_no_dirs|].
  eexists. split; [exact Hmain|]. done.
Qed.

Lemma C2_six_files_witness :
  ∃ w', main keep_pixels resample_unit checkout = (Ok (), w')
        ∧ written w' = in_public <$> output_names
        ∧ fs w' !! in_public "favicon.ico"
          = Some (File (Encoded ICO (resized resample_unit
                                       {| mode_of := MRGBA; size_of := (512, 512)%Z;
                                          pixels := () |} 32))).
Proof.
  destruct checkout_run as (w' & Hmain & _). exists w'.
  destruct (C2_six_files keep_pixels resample_unit checkout w' PNG flat)
    as (Hwritten & _ & _ & _ & _ & _ & _ & _ & Hico & _).
  - done.
  - by left.
  - intros name _. apply checkout_no_dirs.
  - exact Hmain.
  - split_and!; [exact Hmain|exact Hwritten|exact Hico].
Defined.

(** C2 as stated fails: the run writes six files. *)
Lemma C2_seven_files_counterexample : ¬ seven_files_claim.
Proof.
  intros Hclaim.
  destruct checkout_run as (w' & Hmain & Hwritten).
  pose proof (Hclaim unit keep_pixels resample_unit checkout w' PNG flat eq_refl
                checkout_no_dirs eq_refl Hmain) as Hlen.
  rewrite Hwritten in Hlen. vm_compute in Hlen. lia.
Qed.

Lemma one_image_resized :
  ∃ w', resize_square resample_unit 1%positive 32 one_image = (Ok 2%positive, w').
Proof. eexists. vm_compute. reflexivity. Qed.

Lemma C9_resize_square_witness :
  ∃ out w',
    resize_square resample_unit 1%positive 32 one_image = (Ok out, w')
    ∧ ∃ im', heap w' !! out = Some im' ∧ size_of im' = (32, 32)%Z
             ∧ mode_of im' = MP.
Proof.
  destruct one_image_resized as (w' & Hcall). exists 2%positive, w'.
  split; [exact Hcall|].
  destruct (C9_resize_square resample_unit one_image w' 1%positive 2%positive flat 32)
    as (_ & _ & (im' & Him' & Hsize & Hmode & _) & _).
  - apply lookup_singleton_eq.
  - exact Hcall.
  - exists im'. split_and!; [exact Him'|exact Hsize|exact Hmode].
Defined.

(** C9 as stated fails: a size from 2^31 on is positive, and it is
    refused with [OverflowError] when it is handed to C. *)
Lemma C9_every_positive_size_counterexample : ¬ every_positive_size_claim.
Proof.
  intros Hclaim.
  destruct (Hclaim unit resample_unit one_image 1%positive flat 2147483648%Z)
    as (out & w' & im' & Hcall & _).
  - apply lookup_singleton_eq.
  - lia.
  - vm_compute in Hcall. discriminate Hcall.
Qed.

End LogoExamples.

(** * Further properties of the two scripts *)

Section PatcherRuns.
Import Patcher Spec PatcherMore.

(** X1: without a credential (absent or empty), or with a credential but
    without the client library, the script prints one message and exits
    with status 1; the credential is looked at first.  No request is
    sent and no file is written. *)
Theorem X1_configuration_errors (e : env) (mem : memory) :
  ¬ configured e →
  ∃ m, main e mem = ([Print m], Raise (SystemExit 1))
       ∧ (m = MissingApiKey ↔ api_key e = None ∨ api_key e = Some [])
       ∧ (m = MissingOpenAI ↔ ¬ (api_key e = None ∨ api_key e = Some [])).
Proof.
  intros Hcfg. rewrite main_cases. case_bool_decide as Hkey.
  - exists MissingApiKey. split_and!; [done|done|]. split; [done|tauto].
  - destruct (openai_installed e) eqn:Hlib.
    + exfalso. apply Hcfg. unfold configured. split_and!; [tauto|tauto|done].
    + exists MissingOpenAI. split_and!; [done| |done]. split; [done|tauto].
Qed.

Lemma X1_configuration_errors_witness :
  main {| api_key := Some []; openai_installed := false; service := λ _, Ok [] |}
       two_tweets
  = ([Print MissingApiKey], Raise (SystemExit 1)).
Proof.
  destruct (X1_configuration_errors
              {| api_key := Some []; openai_installed := false; service := λ _, Ok [] |}
              two_tweets) as (m & Hmain & Hkey & _).
  - intros (_ & Hne & _). by apply Hne.
  - rewrite Hmain. f_equal. f_equal. f_equal. apply Hkey. by right.
Defined.

(** X2: the file is opened for writing only after the service has
    answered and the update loop has come to its end; and the document
    is written to its end only by a run that completes: such a run has
    sent exactly one request before, it writes once, what it writes
    holds no lone surrogate and is the collection the run ends with. *)
Theorem X2_write_only_when_complete (e : env) (mem : memory) :
  (Truncate ∈ (main e mem).1 →
   ∃ batch content items',
     responds e mem batch content
     ∧ update_loop 0 batch (split blank_line content) (analyzed mem) = Ok items')
  ∧ ∀ written,
      Dump written ∈ (main e mem).1 →
      ∃ n payload k,
        main e mem
        = ([Print (Found n); Request payload; Truncate; Dump written;
            Print (Translated k)],
           Ok {| raw := raw mem; analyzed := written |})
        ∧ dumpable written = true
        ∧ persisted (analyzed mem) (main e mem).1 = Some written.
Proof.
  split.
  - rewrite main_cases.
    case_bool_decide as Hkey; [by intros [=]%list_elem_of_singleton|].
    destruct (openai_installed e) eqn:Hlib; simpl; [|by intros [=]%list_elem_of_singleton].
    destruct (worklist _ _) as [[|tweet wl]|] eqn:Hwl; [set_solver| |set_solver].
    destruct (_ ≫= join_texts) as [payload|] eqn:Hp; [|set_solver].
    destruct (service e payload) as [content|] eqn:Hc; [|set_solver].
    destruct (update_loop _ _ _ _) as [items'|] eqn:Hloop; [|set_solver].
    intros _. exists (take 20 (tweet :: wl)), content, items'. split; [|exact Hloop].
    split; [split_and!; [tauto|tauto|exact Hlib]|].
    exists (tweet :: wl), payload. split_and!; [exact Hwl|done|done|exact Hp|exact Hc].
  - intros written. rewrite main_cases.
    case_bool_decide; [by intros [=]%list_elem_of_singleton|].
    destruct (openai_installed e); simpl; [|by intros [=]%list_elem_of_singleton].
    destruct (worklist _ _) as [[|tweet wl]|]; [set_solver| |set_solver].
    destruct (_ ≫= join_texts) as [payload|]; [|set_solver].
    destruct (service e payload) as [content|]; [|set_solver].
    destruct (update_loop _ _ _ _) as [items'|]; [|set_solver].
    destruct (dumpable items') eqn:Hd; [|set_solver].
    intros Hin. assert (written = items') as -> by set_solver.
    by eexists _, _, _.
Qed.

Lemma X2_write_only_when_complete_witness :
  ∃ n payload k,
    main (answering nihao) two_tweets
    = ([Print (Found n); Request payload; Truncate;
        Dump [with_translation nihao (record_of 1); record_of 2];
        Print (Translated k)],
       Ok {| raw := raw two_tweets;
             analyzed := [with_translation nihao (record_of 1); record_of 2] |}).
Proof.
  destruct (X2_write_only_when_complete (answering nihao) two_tweets) as [_ Hdump].
  destruct (Hdump [with_translation nihao (record_of 1); record_of 2])
    as (n & payload & k & Hmain & _).
  - eapply (list_elem_of_lookup_2 _ 3). vm_compute. reflexivity.
  - exists n, payload, k. exact Hmain.
Defined.

(** X3: once the service has answered, no response text makes the loop
    of lines 58-69 raise, and the file is opened for writing.  A run
    that then completes ends with the collection of the loop, which
    holds no lone surrogate; when that collection holds one, the run
    raises [UnicodeEncodeError] and leaves the file without a document. *)
Theorem X3_answered_run_outcome (e : env) (mem : memory) (batch : list obj)
    (content : pystr) :
  responds e mem batch content →
  ∃ items',
    update_loop 0 batch (split blank_line content) (analyzed mem) = Ok items'
    ∧ Truncate ∈ (main e mem).1
    ∧ (∀ mem', (main e mem).2 = Ok mem' →
               analyzed mem' = items' ∧ dumpable items' = true)
    ∧ (dumpable items' = false →
       (main e mem).2 = Raise UnicodeEncodeError
       ∧ persisted (analyzed mem) (main e mem).1 = None
       ∧ ∀ written, Dump written ∉ (main e mem).1).
Proof.
  intros Hr.
  destruct (main_responds _ _ _ _ Hr) as (_ & _ & Hloop & n & payload & Hmain).
  eexists. split; [exact Hloop|]. rewrite Hmain.
  destruct (dumpable _).
  - split_and!; [set_solver|by intros mem' [= <-]|intros [=]].
  - split_and!; [set_solver|intros mem' [=]|intros _; split_and!; [done|done|set_solver]].
Qed.

Lemma two_tweets_surrogate_loop :
  update_loop 0 (raw two_tweets) (split blank_line lone_surrogate) (analyzed two_tweets)
  = Ok [with_translation lone_surrogate (record_of 1); record_of 2].
Proof. vm_compute. exact eq_refl. Qed.

Lemma X3_answered_run_outcome_witness :
  (main (answering lone_surrogate) two_tweets).2 = Raise UnicodeEncodeError
  ∧ persisted (analyzed two_tweets) (main (answering lone_surrogate) two_tweets).1 = None.
Proof.
  destruct (X3_answered_run_outcome (answering lone_surrogate) two_tweets
              (raw two_tweets) lone_surrogate (two_tweets_respond _))
    as (items' & Hloop & _ & _ & Hbad).
  rewrite two_tweets_surrogate_loop in Hloop. injection Hloop as <-.
  destruct Hbad as (Hraise & Hfile & _); [vm_compute; reflexivity|].
  split; [exact Hraise|exact Hfile].
Defined.

Lemma foldl_step_fields (pairs : list (obj * pystr)) (items : list obj) (j : nat)
    (r' : obj) :
  foldl step items pairs !! j = Some r' →
  ∃ r, items !! j = Some r
       ∧ ∀ field, field ≠ k_translation → r' !! field = r !! field.
Proof.
  revert items. induction pairs as [|p pairs IH]; intros items; simpl.
  - intros Hj. by exists r'.
  - intros (r1 & Hj & Hfields)%IH. unfold step, set_first in Hj.
    destruct (scanned_record items p.1) as [[j' r0]|] eqn:Hs; [|by exists r1].
    apply list_find_Some in Hs as (Hj' & _).
    apply list_lookup_insert_Some in Hj as [(-> & <- & _)|[_ Hj]]; [|by exists r1].
    exists r0. split; [done|]. intros field Hf. rewrite Hfields by done.
    by apply lookup_insert_ne.
Qed.

(** X4: a run that completes leaves the tweets as they were, keeps the
    analysis records in number and order with their identifiers, and
    changes no field of a record other than [translation]. *)
Theorem X4_completed_run_frame (e : env) (mem mem' : memory) :
  (main e mem).2 = Ok mem' →
  raw mem' = raw mem
  ∧ length (analyzed mem') = length (analyzed mem)
  ∧ ∀ j record', analyzed mem' !! j = Some record' →
      ∃ record, analyzed mem !! j = Some record
        ∧ ∀ field, field ≠ k_translation → record' !! field = record !! field.
Proof.
  rewrite main_cases.
  case_bool_decide; [done|]. destruct (openai_installed e); simpl; [|done].
  destruct (worklist _ _) as [[|tweet wl]|] eqn:Hwl; [| |done].
  { intros [= <-]. split_and!; [done..|]. intros j r Hj. by exists r. }
  destruct (worklist_spec _ _ _ Hwl) as (_ & Hkwl & Hitems).
  destruct (_ ≫= join_texts) as [payload|]; [|done].
  destruct (service e payload) as [content|]; [|done].
  rewrite update_loop_spec.
  - destruct (dumpable _); [|done].
    intros [= <-]. simpl. split_and!; [done| |apply foldl_step_fields].
    rewrite <-(length_fmap (λ o : obj, o !! k_id)), <-(length_fmap (λ o : obj, o !! k_id) (analyzed mem)).
    f_equal. apply foldl_step_ids.
  - eapply Forall_impl; [exact Hitems|apply keyed_has_id].
  - apply Forall_take. eapply Forall_impl; [exact Hkwl|apply keyed_has_id].
Qed.

Lemma X4_completed_run_frame_witness :
  ∃ mem', (main (answering nihao) two_tweets).2 = Ok mem'
          ∧ raw mem' = raw two_tweets
          ∧ length (analyzed mem') = 2.
Proof.
  eexists. split; [vm_compute; reflexivity|].
  destruct (X4_completed_run_frame (answering nihao) two_tweets
              {| raw := raw two_tweets;
                 analyzed := [with_translation nihao (record_of 1); record_of 2] |})
    as (Hraw & Hlen & _); [vm_compute; reflexivity|].
  split; [exact Hraw|exact Hlen].
Defined.

(** X5: the scan of lines 24-32 ends without an exception exactly when
    every analysis record has a hashable identifier, every tweet has a
    language, and every English tweet has a hashable identifier; tweets
    in other languages need no identifier. *)
Theorem X5_scan_succeeds_iff (tweets items : list obj) :
  (∃ wl, worklist tweets items = Ok wl) ↔ Forall keyed items ∧ scannable tweets.
Proof.
  split.
  - intros [wl Hwl]. split.
    + by apply worklist_spec in Hwl as (_ & _ & ?).
    + by eapply worklist_scannable.
  - intros [Hitems Hscan]. by apply worklist_total.
Qed.

Lemma build_map_app (good rest : list obj) (m : gmap key obj) :
  build_map (good ++ rest) m = build_map good m ≫= build_map rest.
Proof.
  revert m. induction good as [|item good IH]; intros m; simpl; [done|].
  unfold getitem, hash. destruct (item !! k_id) as [v|]; simpl; [|done].
  destruct (py_key v); simpl; [|done]. apply IH.
Qed.

(** X6: an analysis record without an identifier, or with one that is a
    list or an object, stops the run before anything is printed, with
    [KeyError] in the first case and [TypeError] in the second, whether
    or not a tweet refers to that record. *)
Theorem X6_bad_record_raises (e : env) (mem : memory) (good rest : list obj) (bad : obj) :
  configured e →
  analyzed mem = good ++ bad :: rest →
  Forall keyed good →
  ¬ keyed bad →
  main e mem
  = ([], Raise match bad !! k_id with
               | None => KeyError k_id
               | Some _ => TypeError
               end).
Proof.
  intros (Hk1 & Hk2 & Hlib) Hitems Hgood Hbad.
  rewrite main_cases, bool_decide_eq_false_2 by tauto. rewrite Hlib. simpl.
  unfold worklist. rewrite Hitems, build_map_app.
  destruct (build_map_total good ∅ Hgood) as [m ->]. simpl.
  unfold getitem, hash. unfold keyed, item_key in Hbad.
  destruct (bad !! k_id) as [v|]; simpl in *; [|done].
  destruct (py_key v); simpl; [|done]. exfalso. apply Hbad. by eexists.
Qed.

Lemma X6_bad_record_raises_witness :
  main (answering nihao)
       {| raw := []; analyzed := [record_of 1; {[ k_id := VList [VInt 2] ]}] |}
  = ([], Raise TypeError).
Proof.
  rewrite (X6_bad_record_raises (answering nihao)
             {| raw := []; analyzed := [record_of 1; {[ k_id := VList [VInt 2] ]}] |}
             [record_of 1] [] {[ k_id := VList [VInt 2] ]}).
  - vm_compute. reflexivity.
  - by split_and!.
  - done.
  - constructor; [|constructor]. eexists. vm_compute. reflexivity.
  - intros [k Hk]. vm_compute in Hk. discriminate.
Defined.

Lemma texts_of_ok (batch : list obj) :
  Forall (λ t : obj, is_Some (t !! k_text)) batch →
  ∃ texts, texts_of batch = Ok texts
           ∧ Forall2 (λ t v, t !! k_text = Some v) batch texts.
Proof.
  induction 1 as [|t batch [v Hv] _ (texts & IH & Hall)]; simpl.
  - exists []. split; [done|constructor].
  - exists (v :: texts). unfold getitem. rewrite Hv, IH. simpl. split; [done|by constructor].
Qed.

Lemma texts_of_missing (batch : list obj) :
  Exists (λ t : obj, t !! k_text = None) batch →
  texts_of batch = Raise (KeyError k_text).
Proof.
  induction 1 as [t batch Ht|t batch _ IH]; simpl; unfold getitem.
  - by rewrite Ht.
  - destruct (t !! k_text); simpl; [|done]. by rewrite IH.
Qed.

Lemma as_strs_cases (texts : list value) :
  (∃ strs, texts = VStr <$> strs ∧ as_strs texts = Ok strs)
  ∨ as_strs texts = Raise TypeError.
Proof.
  induction texts as [|v texts [(strs & -> & IH)|IH]]; simpl.
  - left. by exists [].
  - destruct v; try by right. left. exists (s :: strs). by rewrite IH.
  - destruct v; try by right. rewrite IH. by right.
Qed.

(** X7: when a tweet among the first 20 of the worklist has no text, or a
    text that is not a string, the run stops after printing how many
    tweets it found and before any request: with [KeyError] when some
    text is missing, with [TypeError] when all are present but one is
    not a string.  Tweets beyond the first 20 are not looked at. *)
Theorem X7_bad_text_raises (e : env) (mem : memory) (wl : list obj) :
  configured e →
  worklist (raw mem) (analyzed mem) = Ok wl →
  wl ≠ [] →
  ¬ Forall (λ t : obj, ∃ s, t !! k_text = Some (VStr s)) (take 20 wl) →
  ∃ x, main e mem = ([Print (Found (length wl))], Raise x)
       ∧ (x = KeyError k_text ∨ x = TypeError)
       ∧ (x = KeyError k_text ↔ Exists (λ t : obj, t !! k_text = None) (take 20 wl)).
Proof.
  intros (Hk1 & Hk2 & Hlib) Hwl Hne Hbad.
  rewrite main_cases, bool_decide_eq_false_2 by tauto. rewrite Hlib, Hwl. simpl.
  destruct wl as [|tweet wl]; [done|]. cbv zeta.
  set (batch := take 20 (tweet :: wl)) in *. clearbody batch.
  destruct (decide (Exists (λ t : obj, t !! k_text = None) batch)) as [Hmiss|Hall].
  - rewrite (texts_of_missing _ Hmiss). simpl. eexists. split_and!; [done|by left|done].
  - apply not_Exists_Forall in Hall; [|apply _].
    assert (Forall (λ t : obj, is_Some (t !! k_text)) batch) as Hsome.
    { eapply Forall_impl; [exact Hall|]. simpl. intros t Ht.
      by destruct (t !! k_text); [eexists|]. }
    destruct (texts_of_ok _ Hsome) as (texts & -> & Htexts). simpl.
    unfold join_texts. destruct (as_strs_cases texts) as [(strs & -> & _)| ->].
    + exfalso. apply Hbad. apply Forall2_fmap_r in Htexts.
      eapply Forall2_Forall_l; [exact Htexts|]. apply Forall_true. intros s t ?. by exists s.
    + simpl. eexists. split_and!; [done|by right|]. split; [done|].
      intros Hex. exfalso. apply Exists_exists in Hex as (t & Hin & Ht).
      apply (proj1 (Forall_forall _ _) Hsome) in Hin as [? ?]. congruence.
Qed.

Lemma X7_bad_text_raises_witness :
  main (answering nihao)
       {| raw := [{[ k_id := VInt 1; k_lang := VStr (lit "en"); k_text := VInt 7 ]}];
          analyzed := [] |}
  = ([Print (Found 1)], Raise TypeError).
Proof.
  set (tweet := ({[ k_id := VInt 1; k_lang := VStr (lit "en"); k_text := VInt 7 ]} : obj)).
  destruct (X7_bad_text_raises (answering nihao) {| raw := [tweet]; analyzed := [] |} [tweet])
    as (x & Hmain & [->| ->] & Hkey).
  - by split_and!.
  - vm_compute. reflexivity.
  - done.
  - intros Hall. apply Forall_cons in Hall as [[s Hs] _]. vm_compute in Hs. discriminate.
  - exfalso. destruct Hkey as [Hkey _]. specialize (Hkey eq_refl).
    apply Exists_cons in Hkey as [Hkey|Hkey]; [vm_compute in Hkey; discriminate|].
    by apply Exists_nil in Hkey.
  - exact Hmain.
Defined.

(** X8: segments beyond the number of tweets in the batch have no
    effect: the loop, started at position [i], does with a long response
    what it does with its first [i + K] segments ([i] is 0 in the
    script). *)
Theorem X8_surplus_segments_ignored (i : nat) (batch : list obj)
    (translations : list pystr) (items : list obj) :
  update_loop i batch translations items
  = update_loop i batch (take (i + length batch) translations) items.
Proof.
  revert i translations items.
  induction batch as [|tweet batch IH]; intros i translations items; simpl; [done|].
  assert (bool_decide (i < length (take (i + S (length batch)) translations))
          = bool_decide (i < length translations)) as ->.
  { apply bool_decide_ext. rewrite length_take. lia. }
  unfold index. rewrite lookup_take_lt by lia.
  destruct (if bool_decide (i < length translations) then _ else _) as [items'|];
    simpl; [|done].
  rewrite IH. rewrite (IH _ (take _ _)), take_take. do 2 f_equal. lia.
Qed.

(** X9: identifiers are compared as Python compares them, without
    conversion: a tweet whose identifier is a string never matches
    records whose identifiers are numbers, and the other way round.
    Such an English tweet is in the worklist of every run, whatever the
    records hold, and the scan for it leaves the collection as it is. *)
Theorem X9_identifier_types_do_not_mix (tweets items wl : list obj) (tweet : obj) :
  worklist tweets items = Ok wl →
  tweet ∈ tweets →
  is_english tweet →
  (∃ s, tweet !! k_id = Some (VStr s)
        ∧ Forall (λ r : obj, ∃ z, r !! k_id = Some (VInt z)) items)
  ∨ (∃ z, tweet !! k_id = Some (VInt z)
          ∧ Forall (λ r : obj, ∃ s, r !! k_id = Some (VStr s)) items) →
  tweet ∈ wl ∧ ∀ u, set_translation tweet u items = Ok items.
Proof.
  intros Hwl Hin Hen Htypes.
  assert (Forall (λ r, ¬ same_id r tweet) items) as Hnone.
  { destruct Htypes as [(s & Hs & Hall)|(z & Hz & Hall)];
      (eapply Forall_impl; [exact Hall|]); simpl; intros r [x Hx];
      unfold same_id; rewrite Hx; [rewrite Hs|rewrite Hz]; simpl; tauto. }
  assert (has_id tweet) as Hid.
  { destruct Htypes as [(s & Hs & _)|(z & Hz & _)]; by eexists. }
  destruct (worklist_spec _ _ _ Hwl) as (-> & _ & Hitems). split.
  - apply list_elem_of_filter. split; [|done].
    unfold eligible, consulted_record. rewrite (filter_none _ _ Hnone). simpl.
    by destruct (is_english tweet).
  - intros u. rewrite set_translation_spec.
    + unfold set_first, scanned_record.
      by rewrite (proj2 (list_find_None _ _) Hnone).
    + eapply Forall_impl; [exact Hitems|apply keyed_has_id].
    + done.
Qed.

Lemma X9_identifier_types_do_not_mix_witness :
  let tweet : obj := {[ k_id := VStr (lit "1"); k_lang := VStr (lit "en");
                        k_text := VStr (lit "hello") ]} in
  let items := [with_translation nihao (record_of 1)] in
  worklist [tweet] items = Ok [tweet]
  ∧ set_translation tweet zaijian items = Ok items.
Proof.
  intros tweet items.
  assert (worklist [tweet] items = Ok [tweet]) as Hwl by (vm_compute; reflexivity).
  split; [exact Hwl|].
  apply (X9_identifier_types_do_not_mix [tweet] items [tweet] tweet Hwl).
  - by left.
  - apply (bool_decide_unpack _). by vm_compute.
  - left. exists (lit "1"). split; [by vm_compute|].
    constructor; [|constructor]. exists 1%Z. by vm_compute.
Defined.

Lemma strip_idemp (s : pystr) : strip (strip s) = strip s.
Proof.
  destruct (strip_trimmed s) as (_ & _ & _ & _ & _ & Hhead & Hlast).
  apply trimmed_strip. exists [], []. rewrite app_nil_r.
  split_and!; [done|constructor|constructor|done|done].
Qed.

(** X10: the text that cleaning yields has no whitespace at either end
    and is a contiguous piece of the segment: cleaning only removes. *)
Theorem X10_clean_yields_trimmed_piece (segment : pystr) :
  ∃ u before after,
    clean segment = Ok u
    ∧ strip u = u
    ∧ segment = before ++ u ++ after.
Proof.
  destruct (clean_cleaned segment) as (u & Hu & Hc). exists u.
  destruct Hc as [t Ht _|t Ht _ _|t number rest u Ht _ Hcut _ Hu'].
  - pose proof (trimmed_strip _ _ Ht) as <-.
    destruct Ht as (b & a & Hs & _). exists b, a. split_and!; [done|apply strip_idemp|done].
  - pose proof (trimmed_strip _ _ Ht) as <-.
    destruct Ht as (b & a & Hs & _). exists b, a. split_and!; [done|apply strip_idemp|done].
  - pose proof (trimmed_strip _ _ Hu') as <-.
    destruct Ht as (b & a & Hs & _). destruct Hu' as (b' & a' & Hr & _).
    exists (b ++ number ++ bracket_close :: b'), (a' ++ a).
    split_and!; [done|apply strip_idemp|].
    rewrite Hs, Hcut, Hr at 1. by rewrite <-!app_assoc, <-!app_comm_cons, <-!app_assoc.
Qed.

Lemma split_go_pass (p cur s : pystr) :
  10%N ∉ p →
  split_go blank_line 0 cur (p ++ s) = split_go blank_line 0 (reverse p ++ cur) s.
Proof.
  revert cur. induction p as [|c p IH]; intros cur Hp; [done|].
  apply not_elem_of_cons in Hp as [Hc Hp].
  cbn [app split_go startswith blank_line].
  rewrite (proj2 (N.eqb_neq 10 c)) by done. simpl.
  rewrite IH by done. by rewrite reverse_cons, <-app_assoc.
Qed.

Lemma split_join_lines (parts : list pystr) (cur : pystr) :
  parts ≠ [] → Forall (λ p, 10%N ∉ p) parts →
  split_go blank_line 0 cur (join blank_line parts)
  = match parts with
    | p :: more => (reverse cur ++ p) :: more
    | [] => []
    end.
Proof.
  intros Hne Hall. revert cur.
  induction Hall as [|p parts Hp Hall IH]; intros cur; [done|].
  destruct parts as [|q more].
  - simpl. rewrite <-(app_nil_r p) at 1. rewrite split_go_pass by done. simpl.
    by rewrite reverse_app, reverse_involutive.
  - change (join blank_line (p :: q :: more))
      with (p ++ blank_line ++ join blank_line (q :: more)).
    rewrite split_go_pass by done. unfold blank_line at 2.
    cbn [app split_go startswith blank_line length Nat.sub N.eqb Pos.eqb andb].
    rewrite reverse_app, reverse_involutive. f_equal.
    rewrite IH by done. done.
Qed.

(** X11: when no text of the batch contains a newline, the request that
    line 49 builds splits, by the rule of line 55, into exactly the
    texts of the batch, one segment per tweet in order: the positional
    protocol is consistent on single-line texts. *)
Theorem X11_request_splits_back (batch : list obj) (payload : pystr) :
  batch ≠ [] →
  texts_of batch ≫= join_texts = Ok payload →
  (∀ tweet s, tweet ∈ batch → tweet !! k_text = Some (VStr s) → 10%N ∉ s) →
  Forall2 (λ tweet segment, tweet !! k_text = Some (VStr segment))
          batch (split blank_line payload).
Proof.
  intros Hne (strs & -> & Hstrs)%join_texts_spec Hlines.
  assert (Forall (λ p, 10%N ∉ p) strs) as Hall.
  { apply Forall_lookup. intros i s Hi.
    destruct (Forall2_lookup_r _ _ _ _ _ Hstrs Hi) as (tweet & Ht & Hs).
    eapply Hlines; [|exact Hs]. by eapply list_elem_of_lookup_2. }
  assert (strs ≠ []) as Hne'.
  { intros ->. apply Forall2_nil_inv_r in Hstrs. done. }
  unfold split. rewrite split_join_lines by done. by destruct strs.
Qed.

Lemma X11_request_splits_back_witness :
  split blank_line (join blank_line [lit "hello"; lit "bye"]) = [lit "hello"; lit "bye"]
  ∧ Forall2 (λ (tweet : obj) segment, tweet !! k_text = Some (VStr segment))
            (raw two_tweets) (split blank_line (join blank_line [lit "hello"; lit "bye"])).
Proof.
  split; [reflexivity|].
  apply (X11_request_splits_back (raw two_tweets)).
  - done.
  - vm_compute. reflexivity.
  - intros tweet s [->|[->|[]%not_elem_of_nil]%elem_of_cons]%elem_of_cons Hs;
      vm_compute in Hs; injection Hs as <-;
      apply (bool_decide_unpack _); by vm_compute.
Defined.

(** X12: only the first 20 tweets of the worklist are served: whatever
    the response, the update loop leaves the record of a worklist tweet
    at position 20 or later (identifiers of the worklist distinct) as it
    was, and a run that completes ends with the collection of the loop,
    so that the tweet is left for a later run. *)
Theorem X12_beyond_the_batch_untouched (e : env) (mem : memory) (wl : list obj)
    (content : pystr) (i j : nat) (tweet record : obj) :
  responds e mem (take 20 wl) content →
  worklist (raw mem) (analyzed mem) = Ok wl →
  NoDup (item_key <$> wl) →
  wl !! i = Some tweet →
  20 ≤ i →
  scanned_record (analyzed mem) tweet = Some (j, record) →
  ∃ items',
    update_loop 0 (take 20 wl) (split blank_line content) (analyzed mem) = Ok items'
    ∧ items' !! j = Some record
    ∧ ∀ mem', (main e mem).2 = Ok mem' → analyzed mem' = items'.
Proof.
  intros Hr Hwl Hnd Hi Hge Hs.
  destruct (main_responds _ _ _ _ Hr) as (Hitems & _ & Hloop & _).
  destruct (worklist_spec _ _ _ Hwl) as (_ & Hkwl & _).
  eexists. split_and!; [exact Hloop| |].
  2:{ intros mem' Hdone.
      by destruct (main_responds_done _ _ _ _ _ Hr Hdone) as (-> & _). }
  rewrite foldl_step_frame.
  { by apply list_find_Some in Hs as (? & _). }
  intros [tweet' segment] [i' Hi']%list_elem_of_lookup. simpl.
  apply lookup_zip_with_Some in Hi' as (? & ? & [= <- <-] & Hi' & _).
  apply lookup_take_Some in Hi' as [Hi' Hlt].
  eapply scanned_distinct; try done.
  - eapply Forall_lookup_1; [exact Hkwl|exact Hi].
  - eapply Forall_lookup_1; [exact Hkwl|exact Hi'].
  - intros Heq. assert (i = i'); [|lia]. eapply NoDup_lookup; [exact Hnd| |].
    + by rewrite list_lookup_fmap, Hi.
    + rewrite list_lookup_fmap, Hi'. simpl. by rewrite <-Heq.
Qed.

Lemma many_tweets_worklist :
  worklist (raw many_tweets) (analyzed many_tweets) = Ok (raw many_tweets).
Proof. vm_compute. exact eq_refl. Qed.

Lemma many_tweets_respond :
  responds (answering many_lines) many_tweets (take 20 (raw many_tweets)) many_lines.
Proof.
  split; [by split_and!|]. exists (raw many_tweets). eexists.
  split_and!; [exact many_tweets_worklist|done|done|vm_compute; reflexivity|done].
Qed.

Lemma many_tweets_distinct : NoDup (item_key <$> raw many_tweets).
Proof. apply (bool_decide_unpack _). by vm_compute. Qed.

Lemma many_tweets_last_record :
  scanned_record (analyzed many_tweets) (tweet_of 20 "en" "t") = Some (0, record_of 20).
Proof. vm_compute. reflexivity. Qed.

Lemma many_tweets_run :
  (main (answering many_lines) many_tweets).2
  = Ok {| raw := raw many_tweets; analyzed := [record_of 20] |}.
Proof. vm_compute. exact eq_refl. Qed.

Lemma X12_beyond_the_batch_untouched_witness :
  (main (answering many_lines) many_tweets).2
  = Ok {| raw := raw many_tweets; analyzed := [record_of 20] |}
  ∧ ∃ items',
      update_loop 0 (take 20 (raw many_tweets)) (split blank_line many_lines)
        (analyzed many_tweets) = Ok items'
      ∧ items' !! 0 = Some (record_of 20).
Proof.
  split; [exact many_tweets_run|].
  destruct (X12_beyond_the_batch_untouched (answering many_lines) many_tweets
              (raw many_tweets) many_lines 20 0 (tweet_of 20 "en" "t") (record_of 20)
              many_tweets_respond many_tweets_worklist many_tweets_distinct)
    as (items' & Hloop & Hitem & _).
  - done.
  - lia.
  - exact many_tweets_last_record.
  - exists items'. split; [exact Hloop|exact Hitem].
Defined.

(** X13: a response is never without segments: even the empty response
    counts as one segment, the empty one.  So in every answered run the
    update loop sets the translation of the record of the first tweet of
    the batch (identifiers of the batch distinct) to the cleaned first
    segment, and a run that completes ends with the collection of the
    loop. *)
Theorem X13_first_record_always_set (e : env) (mem : memory) (batch : list obj)
    (content : pystr) (tweet record : obj) (j : nat) :
  responds e mem batch content →
  NoDup (item_key <$> batch) →
  batch !! 0 = Some tweet →
  scanned_record (analyzed mem) tweet = Some (j, record) →
  ∃ segment u items',
    split blank_line content !! 0 = Some segment
    ∧ clean segment = Ok u
    ∧ update_loop 0 batch (split blank_line content) (analyzed mem) = Ok items'
    ∧ items' !! j = Some (with_translation u record)
    ∧ ∀ mem', (main e mem).2 = Ok mem' → analyzed mem' = items'.
Proof.
  intros Hr Hnd H0 Hs.
  destruct (main_responds _ _ _ _ Hr) as (Hitems & Hbatch & Hloop & _).
  pose proof (λ mem', main_responds_done e mem mem' batch content Hr) as Hdone.
  destruct (split blank_line content) as [|segment more] eqn:Hsplit.
  { by apply split_go_nonempty in Hsplit. }
  exists segment, (clean_text segment). eexists.
  split_and!; [done|apply clean_text_ok|exact Hloop| |].
  - destruct (loop_positions (analyzed mem) batch (segment :: more) Hitems Hbatch Hnd)
      as (_ & Hhit & _).
    by apply (Hhit 0 tweet segment j record).
  - intros mem' Hmem. by destruct (Hdone mem' Hmem) as (-> & _).
Qed.

Lemma two_tweets_empty_run :
  (main (answering []) two_tweets).2
  = Ok {| raw := raw two_tweets;
          analyzed := [with_translation [] (record_of 1); record_of 2] |}.
Proof. vm_compute. exact eq_refl. Qed.

Lemma X13_first_record_always_set_witness :
  ∃ items',
    (main (answering []) two_tweets).2 = Ok {| raw := raw two_tweets; analyzed := items' |}
    ∧ items' !! 0 = Some (with_translation [] (record_of 1)).
Proof.
  destruct (X13_first_record_always_set (answering []) two_tweets (raw two_tweets) []
              (tweet_of 1 "en" "hello") (record_of 1) 0
              (two_tweets_respond []) two_tweets_distinct eq_refl)
    as (segment & u & items' & Hseg & Hu & _ & Hitem & Hdone).
  - vm_compute. reflexivity.
  - vm_compute in Hseg. injection Hseg as <-. vm_compute in Hu. injection Hu as <-.
    exists items'. split; [|exact Hitem].
    rewrite <-(Hdone _ two_tweets_empty_run). exact two_tweets_empty_run.
Defined.

End PatcherRuns.


Section LogoRuns.
Import Logo LogoSpec LogoMore.
Context {bitmap : Type}.
Variable convert_pixels : mode → mode → bitmap → bitmap.
Variable resample_pixels : resampling → mode → Z * Z → bitmap → Z * Z → bitmap.

#[local] Abbreviation world := (@world bitmap).
#[local] Abbreviation image := (@image bitmap).
#[local] Abbreviation resized := (Logo.resized resample_pixels).

(** X14: when [public] exists and is not a directory, the run stops with
    [FileExistsError] before it reads the source image: nothing is
    written, nothing is printed, no image is loaded. *)
Theorem X14_public_is_a_file (w : world) (c : content) :
  fs w !! public = Some (File c) →
  main convert_pixels resample_pixels w = (Raise FileExistsError, w).
Proof.
  intros Hp. unfold main. apply bind_raise. unfold mkdir_exist_ok. by rewrite Hp.
Qed.

(** X15: when logo.png is missing, is a directory or does not decode,
    the run stops with the exception of [Image.open] after it has made
    sure that [public] exists: the directory stays behind, and nothing
    is written into it or printed. *)
Theorem X15_unreadable_source (w : world) :
  (fs w !! public = None ∨ fs w !! public = Some Dir) →
  (∀ f im, fs w !! (["logo.png"] : path) ≠ Some (File (Encoded f im))) →
  ∃ w', main convert_pixels resample_pixels w
        = (Raise match fs w !! (["logo.png"] : path) with
                 | None => FileNotFoundError
                 | Some Dir => IsADirectoryError
                 | Some (File _) => UnidentifiedImageError
                 end, w')
        ∧ fs w' = <[public := Dir]> (fs w)
        ∧ heap w' = heap w
        ∧ log w' = log w.
Proof.
  intros Hpub Hlogo. unfold main.
  destruct (mkdir_spec w Hpub) as (w1 & Hrun & Hh & Hl & Hdir & Hfs).
  erewrite bind_ok; [|exact Hrun].
  assert (fs w1 = <[public := Dir]> (fs w)) as Hfs1.
  { apply map_eq. intros p. destruct (decide (p = public)) as [->|Hne].
    - by rewrite lookup_insert_eq.
    - rewrite lookup_insert_ne by done. by apply Hfs. }
  exists w1. split_and!; [|done..].
  apply bind_raise. unfold image_open. rewrite Hfs by done.
  destruct (fs w !! (["logo.png"] : path)) as [[|[f im|]]|] eqn:Hl'; [done| |done..].
  by destruct (Hlogo f im).
Qed.

(** X16: a second run over the result of a run that came to its end
    succeeds and leaves every file as the first run left it: the six
    files are written again with the same content, and nothing else
    changes. *)
Theorem X16_second_run_same_files (w w1 : world) (f : format) (src : image) :
  fs w !! ["logo.png"] = Some (File (Encoded f src)) →
  (fs w !! public = None ∨ fs w !! public = Some Dir) →
  (∀ name, name ∈ output_names → fs w !! in_public name ≠ Some Dir) →
  main convert_pixels resample_pixels w = (Ok (), w1) →
  ∃ w2,
    main convert_pixels resample_pixels w1 = (Ok (), w2)
    ∧ fs w2 = fs w1
    ∧ written w2 = written w1 ++ (in_public <$> output_names).
Proof.
  intros Hsrc Hpub Hfree Hmain1.
  destruct (main_done convert_pixels resample_pixels w w1 f src Hsrc Hpub Hfree Hmain1)
    as (Hfew & h1 & fs0 & Hdir & Hfs & Hw1).
  assert (fs w1 !! ["logo.png"] = Some (File (Encoded f src))) as Hsrc1.
  { rewrite Hw1. simpl. rewrite !lookup_insert_ne by done. by rewrite Hfs. }
  assert (fs w1 !! public = Some Dir) as Hdir1.
  { rewrite Hw1. simpl. by rewrite !lookup_insert_ne. }
  assert (∀ name, name ∈ output_names → fs w1 !! in_public name ≠ Some Dir) as Hfree1.
  { intros name Hname. rewrite Hw1. unfold output_names in Hname.
    repeat (apply elem_of_cons in Hname as [->|Hname];
            [simpl; by rewrite ?lookup_insert_ne, lookup_insert_eq by done|]).
    by apply not_elem_of_nil in Hname. }
  destruct (main_runs convert_pixels resample_pixels w1 f src Hsrc1 Hfew
              (or_intror Hdir1) Hfree1)
    as (h2 & fs0' & Hdir' & Hfs' & Hmain2).
  assert (fs0' = fs w1) as ->.
  { apply map_eq. intros p. destruct (decide (p = public)) as [->|Hne]; [congruence|].
    by apply Hfs'. }
  eexists. split_and!; [exact Hmain2| |].
  - rewrite Hw1. simpl.
    repeat (rewrite insert_id; [|by rewrite ?lookup_insert_ne, lookup_insert_eq by done]).
    done.
  - unfold written. simpl. by rewrite !reverse_cons, <-!app_assoc.
Qed.

(** X17: a successful run prints five lines in this order: the size of
    the decoded source, the size of the sidebar image (24, 24), the
    size of the login image (80, 80), the list of favicons and the
    closing line. *)
Theorem X17_printed_lines (w w' : world) (f : format) (src : image) :
  fs w !! ["logo.png"] = Some (File (Encoded f src)) →
  (fs w !! public = None ∨ fs w !! public = Some Dir) →
  (∀ name, name ∈ output_names → fs w !! in_public name ≠ Some Dir) →
  main convert_pixels resample_pixels w = (Ok (), w') →
  said w' = said w ++ [SourceLogo (size_of src); SidebarLogo (24, 24)%Z;
                       LoginLogo (80, 80)%Z; FaviconsGenerated; Done].
Proof.
  intros Hsrc Hpub Hfree Hmain.
  destruct (main_done convert_pixels resample_pixels w w' f src Hsrc Hpub Hfree Hmain)
    as (_ & h1 & fs0 & _ & _ & ->).
  unfold said. simpl. by rewrite !reverse_cons, <-!app_assoc.
Qed.

End LogoRuns.


Section LogoRunExamples.
Import Logo LogoSpec LogoMore.

Lemma X14_public_is_a_file_witness :
  main keep_pixels resample_unit
       {| heap := ∅; fs := {[ public := File Other ]}; log := [] |}
  = (Raise FileExistsError, {| heap := ∅; fs := {[ public := File Other ]}; log := [] |}).
Proof.
  apply (X14_public_is_a_file keep_pixels resample_unit _ Other).
  apply lookup_singleton_eq.
Defined.

Lemma X15_unreadable_source_witness :
  ∃ w', main keep_pixels resample_unit {| heap := ∅; fs := ∅; log := [] |}
        = (Raise FileNotFoundError, w')
        ∧ fs w' = {[ public := Dir ]}.
Proof.
  destruct (X15_unreadable_source keep_pixels resample_unit
              {| heap := ∅; fs := ∅; log := [] |})
    as (w' & Hmain & Hfs & _).
  - by left.
  - intros f im. simpl. by rewrite lookup_empty.
  - exists w'. split; [exact Hmain|exact Hfs].
Defined.

Lemma X16_second_run_same_files_witness :
  ∃ w1 w2,
    main keep_pixels resample_unit checkout = (Ok (), w1)
    ∧ main keep_pixels resample_unit w1 = (Ok (), w2)
    ∧ fs w2 = fs w1.
Proof.
  destruct checkout_run as (w1 & H1 & _).
  destruct (X16_second_run_same_files keep_pixels resample_unit checkout w1 PNG flat)
    as (w2 & H2 & Hfs & _).
  - done.
  - by left.
  - intros name _. apply checkout_no_dirs.
  - exact H1.
  - exists w1, w2. split_and!; [exact H1|exact H2|exact Hfs].
Defined.

Lemma X17_printed_lines_witness :
  ∃ w', main keep_pixels resample_unit checkout = (Ok (), w')
        ∧ said w' = [SourceLogo (512, 512)%Z; SidebarLogo (24, 24)%Z;
                     LoginLogo (80, 80)%Z; FaviconsGenerated; Done].
Proof.
  destruct checkout_run as (w' & Hmain & _). exists w'. split; [exact Hmain|].
  apply (X17_printed_lines keep_pixels resample_unit checkout w' PNG flat).
  - done.
  - by left.
  - intros name _. apply checkout_no_dirs.
  - exact Hmain.
Defined.

End LogoRunExamples.
